(** * node-compress: the ZipLib<Processor> request pipeline of src/zlib.h

    A shallow embedding of the class template [ZipLib<Processor>]: the stream
    state machine ([Write], [Close], [Destroy], [Finish]), the argument
    checks of the JavaScript entry points, the request queue with its
    dispatch flag, the worker loop [DoProcess] and the delivery of the
    completion callbacks.

    Conventions.
    - C++ [int] values are [Z]; the one arithmetic operation the class
      performs on them, [dataLength + 1], goes through [int_add], which
      wraps to 32 bits.
    - [Blob &out], [State &state_] and the other references become values
      passed in and returned.
    - Loops whose exit depends on the processor carry a [fuel] argument;
      [None] means the fuel ran out.
    - Every allocation that the code checks ([new (std::nothrow)],
      [Queue::Push], [Blob::GrowBy]) draws its outcome from [heap_], the
      list of the outcomes to come; an exhausted list grants everything.
    - [calls_] is a ghost log of the calls made on the processor and of the
      growth requests made on output blobs; the code has no such field, and
      nothing reads it. *)

From Stdlib Require Import ZArith List Bool Lia String.
From Stdlib Require Import Strings.Byte.
Import ListNotations.
Open Scope Z_scope.

(** ** C++ [int] *)

Definition INT_MAX : Z := 2147483647.

Definition int_wrap (z : Z) : Z := (z + 2 ^ 31) mod 2 ^ 32 - 2 ^ 31.

Definition int_add (a b : Z) : Z := int_wrap (a + b).

(** ** JavaScript values seen by the entry points *)

Inductive Value : Type :=
| Undefined
| Null
| Number (n : Z)
| Str (s : string)
| BufferV (bytes : list byte)
| FunctionV (f : nat)
| ObjectV.

Inductive Exception : Type :=
| TypeError (msg : string)
| Error_ (msg : string).

(** What an entry point hands back: a value, or a pending exception. *)
Inductive Completion : Type :=
| Return (v : Value)
| Throw (e : Exception).

Definition IsUndefined (v : Value) : bool :=
  match v with Undefined => true | _ => false end.

Definition IsFunction (v : Value) : bool :=
  match v with FunctionV _ => true | _ => false end.

(** [Buffer::HasInstance]. *)
Definition HasInstance (v : Value) : bool :=
  match v with BufferV _ => true | _ => false end.

(** [args[i]]: V8 yields [Undefined] past the last argument. *)
Definition arg (args : list Value) (i : nat) : Value := nth i args Undefined.

(** ** utils.h *)

(** Modelled from the spec: the output buffer [Blob] is declared in utils.h,
    which is not part of the sources.  The spec describes it as an
    append-only byte sequence that can be grown on demand, a growth call
    growing it by at least the requested size and failing when the
    allocation fails.  [ok] is the outcome of that allocation. *)
Record Blob : Type := mkBlob {
  blob_data : list byte;
  blob_capacity : Z
}.

Definition Blob_new : Blob := mkBlob [] 0.

Definition blob_length (b : Blob) : Z := Z.of_nat (List.length (blob_data b)).

Definition blob_avail (b : Blob) : Z := blob_capacity b - blob_length b.

Definition Blob_GrowBy (ok : bool) (n : Z) (b : Blob) : bool * Blob :=
  if ok then (true, mkBlob (blob_data b) (blob_capacity b + n))
  else (false, b).

(** Modelled from the spec: [Queue<T>] is declared in utils.h.  The spec
    describes a FIFO sequence with push, pop and length as its only
    operations, not synchronized by itself; a push fails when its node
    cannot be allocated. *)
Definition Queue (T : Type) : Type := list T.

Definition Queue_Push {T : Type} (ok : bool) (x : T) (q : Queue T)
  : bool * Queue T :=
  if ok then (true, q ++ [x]) else (false, q).

Definition Queue_length {T : Type} (q : Queue T) : Z := Z.of_nat (List.length q).

Definition Queue_Pop {T : Type} (q : Queue T) : option (T * Queue T) :=
  match q with
  | [] => None
  | x :: q' => Some (x, q')
  end.

(** ** The stream states *)

Inductive State : Type := Idle | Destroyed | Data | Eos | Error.

Definition State_eqb (a b : State) : bool :=
  match a, b with
  | Idle, Idle | Destroyed, Destroyed | Data, Data | Eos, Eos
  | Error, Error => true
  | _, _ => false
  end.

(** Modelled from the spec: [StateTransition<State>] is declared in utils.h.
    The spec describes a scoped guard: the target state is set when the
    guard is created, [alter] replaces the target, [abort] cancels the
    guard, and when the scope is left the target is committed to the
    guarded state unless the guard was cancelled.  The guarded reference
    is always [state_], so the guard itself holds the target and the
    cancel flag only. *)
Record Transition : Type := mkTransition {
  value_ : State;
  abort_ : bool
}.

Definition Transition_new (target : State) : Transition :=
  mkTransition target false.

Definition alter (t : Transition) (target : State) : Transition :=
  mkTransition target (abort_ t).

Definition abort (t : Transition) : Transition :=
  mkTransition (value_ t) true.

(** What leaving the scope does to the guarded state. *)
Definition Transition_commit (t : Transition) (current : State) : State :=
  if abort_ t then current else value_ t.

(** ** The processor (the template parameter) *)

(** The result of [Processor::Write(data, dataLength, out)]: [dataLength]
    is passed by reference and comes back as the input still to consume. *)
Record WriteResult (P : Type) : Type := mkWriteResult {
  wr_processor : P;
  wr_dataLength : Z;
  wr_out : Blob;
  wr_ret : Z
}.
Arguments mkWriteResult {P}.
Arguments wr_processor {P}.
Arguments wr_dataLength {P}.
Arguments wr_out {P}.
Arguments wr_ret {P}.

Record FinishResult (P : Type) : Type := mkFinishResult {
  fr_processor : P;
  fr_out : Blob;
  fr_ret : Z
}.
Arguments mkFinishResult {P}.
Arguments fr_processor {P}.
Arguments fr_out {P}.
Arguments fr_ret {P}.

(** [Processor] with its [Processor::Utils]. *)
Class Processor (P : Type) : Type := {
  StatusOk : Z;
  StatusSequenceError : Z;
  StatusMemoryError : Z;
  StatusEndOfStream : Z;
  IsError : Z -> bool;
  processor_new : P;
  processor_Init : P -> list Value -> P * Value;
  processor_Write : P -> list byte -> Z -> Blob -> WriteResult P;
  processor_Finish : P -> Blob -> FinishResult P;
  processor_Destroy : P -> P
}.

(** ** Requests *)

Inductive Kind : Type := RWrite | RClose | RDestroy.

(** [self_] is left out: the model holds one instance.  [buffer_] only
    keeps the JavaScript buffer alive; [data_] are its bytes and
    [length_] their number.  [status_] has no value until [setStatus]. *)
Record Request : Type := mkRequest {
  kind_ : Kind;
  data_ : list byte;
  length_ : Z;
  callback_ : option nat;
  out_ : Blob;
  status_ : option Z
}.

Definition setStatus (status : Z) (r : Request) : Request :=
  mkRequest (kind_ r) (data_ r) (length_ r) (callback_ r) (out_ r)
    (Some status).

Definition setOutput (out : Blob) (r : Request) : Request :=
  mkRequest (kind_ r) (data_ r) (length_ r) (callback_ r) out (status_ r).

(** [Request::GetBuffer(v)->data()]. *)
Definition GetBuffer (v : Value) : list byte :=
  match v with BufferV bytes => bytes | _ => [] end.

(** [Local<Function>::Cast] of a checked callback; an empty handle is
    [None]. *)
Definition Cast (v : Value) : option nat :=
  match v with FunctionV f => Some f | _ => None end.

(** ** Calls observed on the processor and on output blobs (ghost) *)

(** [CGrowBy n ok]: [out.GrowBy(n)] and what it returned.
    [CWrite dataLength ret left]: [processor_.Write] called with
    [dataLength] bytes to consume, what it returned, and the bytes it
    left unconsumed.  [CFinish ret]: [processor_.Finish] and what it
    returned.  [CDestroy]: [processor_.Destroy()]. *)

Inductive Call : Type :=
| CGrowBy (n : Z) (ok : bool)
| CWrite (dataLength : Z) (ret : Z) (left : Z)
| CFinish (ret : Z)
| CDestroy.

(** One callback invocation: the function, the status given to
    [GetException], and the bytes given to [Encode]. *)
Record Delivery : Type := mkDelivery {
  d_callback : nat;
  d_status : Z;
  d_output : list byte
}.

(** Whether [Destroy] reaches [processor_.Destroy()] from a state. *)
Definition releases (s : State) : bool :=
  match s with Idle | Destroyed => false | _ => true end.

(** ** The instance and its surroundings *)

Section ZipLib.

Context {P : Type} {processor : Processor P}.

(** The fields of [ZipLib] ([processor_], [state_], [requestsQueue_],
    [processorActive_]; the mutexes are left to the scheduling model
    below), the static [callbackQueue_], and what the host runtime keeps
    for the instance: the [Ref]/[Unref] count of the wrapped object, the
    [ev_ref]/[ev_unref] count of the event loop, the [eio_custom] tasks
    not yet started, whether [ev_async_send] was called since the last
    handling, and the callbacks invoked so far. *)
Record World : Type := mkWorld {
  processor_ : P;
  state_ : State;
  requestsQueue_ : Queue Request;
  processorActive_ : bool;
  callbackQueue_ : Queue Request;
  refs_ : Z;
  loop_refs_ : Z;
  tasks_ : nat;
  notify_ : bool;
  delivered_ : list Delivery;
  heap_ : list bool;
  calls_ : list Call
}.

Definition set_processor_ (p : P) (w : World) : World :=
  mkWorld p (state_ w) (requestsQueue_ w) (processorActive_ w)
    (callbackQueue_ w) (refs_ w) (loop_refs_ w) (tasks_ w) (notify_ w)
    (delivered_ w) (heap_ w) (calls_ w).

Definition set_state_ (s : State) (w : World) : World :=
  mkWorld (processor_ w) s (requestsQueue_ w) (processorActive_ w)
    (callbackQueue_ w) (refs_ w) (loop_refs_ w) (tasks_ w) (notify_ w)
    (delivered_ w) (heap_ w) (calls_ w).

Definition set_requestsQueue_ (q : Queue Request) (w : World) : World :=
  mkWorld (processor_ w) (state_ w) q (processorActive_ w)
    (callbackQueue_ w) (refs_ w) (loop_refs_ w) (tasks_ w) (notify_ w)
    (delivered_ w) (heap_ w) (calls_ w).

Definition set_processorActive_ (b : bool) (w : World) : World :=
  mkWorld (processor_ w) (state_ w) (requestsQueue_ w) b
    (callbackQueue_ w) (refs_ w) (loop_refs_ w) (tasks_ w) (notify_ w)
    (delivered_ w) (heap_ w) (calls_ w).

Definition set_callbackQueue_ (q : Queue Request) (w : World) : World :=
  mkWorld (processor_ w) (state_ w) (requestsQueue_ w) (processorActive_ w)
    q (refs_ w) (loop_refs_ w) (tasks_ w) (notify_ w)
    (delivered_ w) (heap_ w) (calls_ w).

Definition set_refs_ (n : Z) (w : World) : World :=
  mkWorld (processor_ w) (state_ w) (requestsQueue_ w) (processorActive_ w)
    (callbackQueue_ w) n (loop_refs_ w) (tasks_ w) (notify_ w)
    (delivered_ w) (heap_ w) (calls_ w).

Definition set_loop_refs_ (n : Z) (w : World) : World :=
  mkWorld (processor_ w) (state_ w) (requestsQueue_ w) (processorActive_ w)
    (callbackQueue_ w) (refs_ w) n (tasks_ w) (notify_ w)
    (delivered_ w) (heap_ w) (calls_ w).

Definition set_tasks_ (n : nat) (w : World) : World :=
  mkWorld (processor_ w) (state_ w) (requestsQueue_ w) (processorActive_ w)
    (callbackQueue_ w) (refs_ w) (loop_refs_ w) n (notify_ w)
    (delivered_ w) (heap_ w) (calls_ w).

Definition set_notify_ (b : bool) (w : World) : World :=
  mkWorld (processor_ w) (state_ w) (requestsQueue_ w) (processorActive_ w)
    (callbackQueue_ w) (refs_ w) (loop_refs_ w) (tasks_ w) b
    (delivered_ w) (heap_ w) (calls_ w).

Definition set_delivered_ (d : list Delivery) (w : World) : World :=
  mkWorld (processor_ w) (state_ w) (requestsQueue_ w) (processorActive_ w)
    (callbackQueue_ w) (refs_ w) (loop_refs_ w) (tasks_ w) (notify_ w)
    d (heap_ w) (calls_ w).

Definition set_heap_ (h : list bool) (w : World) : World :=
  mkWorld (processor_ w) (state_ w) (requestsQueue_ w) (processorActive_ w)
    (callbackQueue_ w) (refs_ w) (loop_refs_ w) (tasks_ w) (notify_ w)
    (delivered_ w) h (calls_ w).

Definition set_calls_ (c : list Call) (w : World) : World :=
  mkWorld (processor_ w) (state_ w) (requestsQueue_ w) (processorActive_ w)
    (callbackQueue_ w) (refs_ w) (loop_refs_ w) (tasks_ w) (notify_ w)
    (delivered_ w) (heap_ w) c.

(** The outcome of the next checked allocation. *)
Definition allocate (w : World) : bool * World :=
  match heap_ w with
  | [] => (true, w)
  | ok :: rest => (ok, set_heap_ rest w)
  end.

Definition log_call (c : Call) (w : World) : World :=
  set_calls_ (calls_ w ++ [c]) w.

(** [out.GrowBy(n)]. *)
Definition GrowBy (n : Z) (out : Blob) (w : World) : bool * Blob * World :=
  let (ok, w) := allocate w in
  let (grown, out) := Blob_GrowBy ok n out in
  (grown, out, log_call (CGrowBy n grown) w).

(** [data - dataLength], [data] having been moved to the end of the
    buffer: the last [dataLength] bytes. *)
Definition remaining (data : list byte) (dataLength : Z) : list byte :=
  skipn (Z.to_nat (Z.of_nat (List.length data) - dataLength)) data.

(** [this->processor_.Write(data - dataLength, dataLength, out)]. *)
Definition call_Write (data : list byte) (dataLength : Z) (out : Blob)
  (w : World) : Z * Z * Blob * World :=
  let r := processor_Write (processor_ w) (remaining data dataLength)
             dataLength out in
  (wr_ret r, wr_dataLength r, wr_out r,
   log_call (CWrite dataLength (wr_ret r) (wr_dataLength r))
     (set_processor_ (wr_processor r) w)).

(** [this->processor_.Finish(out)]. *)
Definition call_Finish (out : Blob) (w : World) : Z * Blob * World :=
  let r := processor_Finish (processor_ w) out in
  (fr_ret r, fr_out r,
   log_call (CFinish (fr_ret r)) (set_processor_ (fr_processor r) w)).

(** [this->processor_.Destroy()]. *)
Definition call_Destroy (w : World) : World :=
  log_call CDestroy (set_processor_ (processor_Destroy (processor_ w)) w).

(** Leaving the scope of [Transition t(state_, ...)]. *)
Definition leave (t : Transition) (w : World) : World :=
  set_state_ (Transition_commit t (state_ w)) w.

(** ** The stream state machine (zlib.h, 464-522) *)

(** The [while (dataLength > 0)] loop of [Write]; it hands back the
    returned status with the guard as the [return] found it. *)
Fixpoint Write_loop (fuel : nat) (data : list byte) (dataLength : Z)
  (t : Transition) (out : Blob) (w : World)
  : option (Z * Transition * Blob * World) :=
  if dataLength >? 0 then
    match fuel with
    | O => None
    | S fuel =>
      match GrowBy (int_add dataLength 1) out w with
      | (false, out, w) => Some (StatusMemoryError, t, out, w)
      | (true, out, w) =>
        match call_Write data dataLength out w with
        | (ret, dataLength, out, w) =>
          if IsError ret then Some (ret, t, out, w)
          else if ret =? StatusEndOfStream then Some (ret, alter t Eos, out, w)
          else Write_loop fuel data dataLength t out w
        end
      end
    end
  else Some (StatusOk, abort t, out, w).

Definition Write (fuel : nat) (data : list byte) (dataLength : Z)
  (out : Blob) (w : World) : option (Z * Blob * World) :=
  if negb (State_eqb (state_ w) Data) then Some (StatusSequenceError, out, w)
  else
    let t := Transition_new Error in
    match Write_loop fuel data dataLength t out w with
    | None => None
    | Some (ret, t, out, w) => Some (ret, out, leave t w)
    end.

Definition Destroy (w : World) : World :=
  let w :=
    if negb (State_eqb (state_ w) Idle) && negb (State_eqb (state_ w) Destroyed)
    then call_Destroy w else w in
  set_state_ Destroyed w.

Definition Chunk : Z := 128.

(** The [do ... while] loop of [Finish]. *)
Fixpoint Finish (fuel : nat) (out : Blob) (w : World)
  : option (Z * Blob * World) :=
  match fuel with
  | O => None
  | S fuel =>
    match GrowBy Chunk out w with
    | (false, out, w) => Some (StatusMemoryError, out, w)
    | (true, out, w) =>
      match call_Finish out w with
      | (ret, out, w) =>
        if IsError ret then Some (ret, out, w)
        else if negb (ret =? StatusEndOfStream) then Finish fuel out w
        else Some (StatusOk, out, w)
      end
    end
  end.

Definition Close (fuel : nat) (out : Blob) (w : World)
  : option (Z * Blob * World) :=
  if State_eqb (state_ w) Idle || State_eqb (state_ w) Destroyed
  then Some (StatusOk, out, w)
  else
    let t := Transition_new Error in
    let finished :=
      if State_eqb (state_ w) Data then Finish fuel out w
      else Some (StatusOk, out, w) in
    match finished with
    | None => None
    | Some (ret, out, w) =>
      let t := abort t in
      let w := Destroy w in
      Some (ret, out, leave t w)
    end.

(** ** Requests and the JavaScript entry points (zlib.h, 85-131, 206-288) *)

Definition Request_Write (inputBuffer : Value) (callback : option nat)
  (w : World) : option Request * World :=
  let (ok, w) := allocate w in
  (if ok
   then Some (mkRequest RWrite (GetBuffer inputBuffer)
                (int_wrap (Z.of_nat (List.length (GetBuffer inputBuffer))))
                callback Blob_new None)
   else None, w).

Definition Request_Close (callback : option nat) (w : World)
  : option Request * World :=
  let (ok, w) := allocate w in
  (if ok then Some (mkRequest RClose [] 0 callback Blob_new None) else None, w).

Definition Request_Destroy (w : World) : option Request * World :=
  let (ok, w) := allocate w in
  (if ok then Some (mkRequest RDestroy [] 0 None Blob_new None) else None, w).

(** [request->status()]; every request that reaches [callbackQueue_] went
    through [setStatus]. *)
Definition status (r : Request) : Z :=
  match status_ r with Some s => s | None => 0 end.

Definition ThrowGentleOom : Completion := Throw (Error_ "Insufficient space").

Definition ThrowCallbackExpected : Completion :=
  Throw (TypeError "Callback must be a function").

Definition eio_custom (w : World) : World := set_tasks_ (S (tasks_ w)) w.

(** The two counts as one thread sees them.  No mutex guards them:
    [PushRequest] raises them on the JavaScript thread and [DoProcess]
    lowers them on a worker.  The scheduling model below carries them
    along, and nothing is proved of them there; what is proved of them is
    proved of runs in which the threads take turns. *)

Definition ev_ref (w : World) : World := set_loop_refs_ (loop_refs_ w + 1) w.

Definition ev_unref (w : World) : World := set_loop_refs_ (loop_refs_ w - 1) w.

Definition ev_async_send (w : World) : World := set_notify_ true w.

Definition Ref (w : World) : World := set_refs_ (refs_ w + 1) w.

Definition Unref (w : World) : World := set_refs_ (refs_ w - 1) w.

(** [PushRequest] between [pthread_mutex_lock] and [pthread_mutex_unlock]:
    it yields [pushed] and [startProcessing]. *)
Definition PushRequest_locked (request : Request) (w : World)
  : bool * bool * World :=
  let (ok, w) := allocate w in
  let (pushed, q) := Queue_Push ok request (requestsQueue_ w) in
  let w := set_requestsQueue_ q w in
  let startProcessing := negb (processorActive_ w) in
  let w :=
    if pushed && startProcessing then set_processorActive_ true w else w in
  (pushed, startProcessing, w).

(** [PushRequest] after the unlock. *)
Definition PushRequest_unlocked (pushed startProcessing : bool) (w : World)
  : Completion * World :=
  if negb pushed then (ThrowGentleOom, w)
  else
    let w := if startProcessing then eio_custom w else w in
    let w := ev_ref w in
    let w := Ref w in
    (Return Undefined, w).

Definition PushRequest (request : option Request) (w : World)
  : Completion * World :=
  match request with
  | None => (ThrowGentleOom, w)
  | Some request =>
    match PushRequest_locked request w with
    | (pushed, startProcessing, w) =>
      PushRequest_unlocked pushed startProcessing w
    end
  end.

(** The constructor [ZipLib()], on a fresh process. *)
Definition ZipLib_ctor (heap : list bool) : World :=
  mkWorld processor_new Idle [] false [] 0 0 0 false [] heap [].

(** [New(args)]; the instance exists unless its allocation failed.  What
    [Init] hands back, when it is not [Undefined], is returned as it is
    ([return exception;], line 216): [New] itself throws nothing then. *)
Definition New (args : list Value) (heap : list bool)
  : Completion * option World :=
  let (ok, heap) :=
    match heap with [] => (true, []) | ok :: rest => (ok, rest) end in
  if negb ok then (ThrowGentleOom, None)
  else
    let w := ZipLib_ctor heap in
    let t := Transition_new Error in
    let (p, exception) := processor_Init (processor_ w) args in
    let w := set_processor_ p w in
    if negb (IsUndefined exception)
    then (Return exception, Some (leave t w))
    else
      let t := alter t Data in
      (Return ObjectV, Some (leave t w)).

(** The static [Write(const Arguments&)] up to its last statement,
    [return self->PushRequest(request)]: the exception thrown on the way,
    or the request handed to [PushRequest]. *)
Definition Write_request (args : list Value) (w : World)
  : Completion + option Request * World :=
  if negb (HasInstance (arg args 0))
  then inl (Throw (TypeError "Input must be of type Buffer"))
  else
    let checked :=
      if (1 <? List.length args)%nat && negb (IsUndefined (arg args 1))
      then
        if negb (IsFunction (arg args 1)) then None
        else Some (Cast (arg args 1))
      else Some None in
    match checked with
    | None => inl ThrowCallbackExpected
    | Some cb => inr (Request_Write (arg args 0) cb w)
    end.

Definition Write_args (args : list Value) (w : World) : Completion * World :=
  match Write_request args w with
  | inl exception => (exception, w)
  | inr (request, w) => PushRequest request w
  end.

(** The static [Close(const Arguments&)], in the same two parts. *)
Definition Close_request (args : list Value) (w : World)
  : Completion + option Request * World :=
  let checked :=
    if (0 <? List.length args)%nat && negb (IsUndefined (arg args 0))
    then
      if negb (IsFunction (arg args 0)) then None
      else Some (Cast (arg args 0))
    else Some None in
  match checked with
  | None => inl ThrowCallbackExpected
  | Some cb => inr (Request_Close cb w)
  end.

Definition Close_args (args : list Value) (w : World) : Completion * World :=
  match Close_request args w with
  | inl exception => (exception, w)
  | inr (request, w) => PushRequest request w
  end.

(** The static [Destroy(const Arguments&)], in the same two parts. *)
Definition Destroy_request (args : list Value) (w : World)
  : Completion + option Request * World :=
  inr (Request_Destroy w).

Definition Destroy_args (args : list Value) (w : World) : Completion * World :=
  match Destroy_request args w with
  | inl exception => (exception, w)
  | inr (request, w) => PushRequest request w
  end.

(** ** The worker loop and the callbacks (zlib.h, 335-440) *)

(** [ReentrantPop(requestsQueue_, requestsMutex_, request)]. *)
Definition ReentrantPop_requests (w : World) : option Request * World :=
  if negb (Queue_length (requestsQueue_ w) =? 0) then
    match Queue_Pop (requestsQueue_ w) with
    | Some (request, q) => (Some request, set_requestsQueue_ q w)
    | None => (None, w)
    end
  else (None, w).

(** [ReentrantPop(callbackQueue_, callbackMutex_, request)]. *)
Definition ReentrantPop_callbacks (w : World) : option Request * World :=
  if negb (Queue_length (callbackQueue_ w) =? 0) then
    match Queue_Pop (callbackQueue_ w) with
    | Some (request, q) => (Some request, set_callbackQueue_ q w)
    | None => (None, w)
    end
  else (None, w).

(** The [switch (request->kind())] of [DoProcess]. *)
Definition execute (fuel : nat) (request : Request) (w : World)
  : option (Request * World) :=
  match kind_ request with
  | RWrite =>
    match Write fuel (data_ request) (length_ request) (out_ request) w with
    | None => None
    | Some (ret, out, w) => Some (setStatus ret (setOutput out request), w)
    end
  | RClose =>
    match Close fuel (out_ request) w with
    | None => None
    | Some (ret, out, w) => Some (setStatus ret (setOutput out request), w)
    end
  | RDestroy =>
    let w := Destroy w in
    Some (setStatus StatusOk request, w)
  end.

(** What [DoProcess] does with an executed request: under
    [callbackMutex_] (lines 359-361), which yields [success], and after
    the unlock (lines 362-375). *)
Definition complete_locked (request : Request) (w : World) : bool * World :=
  let (ok, w) := allocate w in
  let (success, q) := Queue_Push ok request (callbackQueue_ w) in
  (success, set_callbackQueue_ q w).

Definition complete_unlocked (success : bool) (w : World) : World :=
  let w := ev_async_send w in
  let w := ev_unref w in
  if negb success then Unref w else w.

Definition complete (request : Request) (w : World) : World :=
  let (success, w) := complete_locked request w in
  complete_unlocked success w.

(** The end of the [do] body (lines 378-381): it yields [flag]. *)
Definition recheck (w : World) : bool * World :=
  let flag := negb (Queue_length (requestsQueue_ w) =? 0) in
  (flag, set_processorActive_ flag w).

(** The [while (ReentrantPop(...))] loop of [DoProcess]. *)
Fixpoint DoProcess_drain (fuel : nat) (n : nat) (w : World) : option World :=
  match n with
  | O => None
  | S n =>
    match ReentrantPop_requests w with
    | (None, w) => Some w
    | (Some request, w) =>
      match execute fuel request w with
      | None => None
      | Some (request, w) => DoProcess_drain fuel n (complete request w)
      end
    end
  end.

(** [DoProcess()] run without another thread in between. *)
Fixpoint DoProcess_from (fuel : nat) (n : nat) (w : World) : option World :=
  match n with
  | O => None
  | S n =>
    match DoProcess_drain fuel fuel w with
    | None => None
    | Some w =>
      match recheck w with
      | (true, w) => DoProcess_from fuel n w
      | (false, w) => Some w
      end
    end
  end.

Definition DoProcess (fuel : nat) (w : World) : option World :=
  DoProcess_from fuel fuel w.

Definition DoCallback (cb : option nat) (r : Z) (out : Blob) (w : World)
  : World :=
  match cb with
  | Some f => set_delivered_ (delivered_ w ++ [mkDelivery f r (blob_data out)]) w
  | None => w
  end.

(** The body of the loop of [DoHandleCallbacks] for a popped request; the
    request is deleted afterwards. *)
Definition handle (request : Request) (w : World) : World :=
  let w := DoCallback (callback_ request) (status request) (out_ request) w in
  Unref w.

Fixpoint DoHandleCallbacks (fuel : nat) (w : World) : option World :=
  match fuel with
  | O => None
  | S fuel =>
    match ReentrantPop_callbacks w with
    | (None, w) => Some w
    | (Some request, w) => DoHandleCallbacks fuel (handle request w)
    end
  end.

(** ** Threads: the JavaScript thread and the workers *)

(** Where a worker is in [DoProcess()]. *)
Inductive Worker : Type :=
| AtPop
| AtSwitch (request : Request)
| AtComplete (request : Request)
| AtNotify (success : bool)
| AtRecheck
| Returned.

Inductive JsCall : Type :=
| CallWrite (args : list Value)
| CallClose (args : list Value)
| CallDestroy (args : list Value).

(** The whole system: the shared [world]; the calls the JavaScript thread
    has still to make; [pushing], the locals [pushed] and
    [startProcessing] while that thread is in [PushRequest] after the
    unlock; [handling], whether it is in the loop of [DoHandleCallbacks];
    and the workers, each at its place in [DoProcess()]. *)
Record Sys : Type := mkSys {
  world : World;
  script : list JsCall;
  pushing : option (bool * bool);
  handling : bool;
  workers : list Worker
}.

Definition request_of (c : JsCall) (w : World)
  : Completion + option Request * World :=
  match c with
  | CallWrite args => Write_request args w
  | CallClose args => Close_request args w
  | CallDestroy args => Destroy_request args w
  end.

(** The JavaScript thread makes its next call and runs it to the unlock in
    [PushRequest], or to the exception thrown before. *)
Definition js_call (s : Sys) : list Sys :=
  match pushing s, script s with
  | None, c :: rest =>
    match request_of c (world s) with
    | inl _ => [mkSys (world s) rest None (handling s) (workers s)]
    | inr (None, w) => [mkSys w rest None (handling s) (workers s)]
    | inr (Some request, w) =>
      match PushRequest_locked request w with
      | (pushed, startProcessing, w) =>
        [mkSys w rest (Some (pushed, startProcessing)) (handling s)
           (workers s)]
      end
    end
  | _, _ => []
  end.

(** It runs the rest of [PushRequest]. *)
Definition js_return (s : Sys) : list Sys :=
  match pushing s with
  | Some (pushed, startProcessing) =>
    [mkSys (snd (PushRequest_unlocked pushed startProcessing (world s)))
       (script s) None (handling s) (workers s)]
  | None => []
  end.

(** The event loop enters [DoHandleCallbacks]: through
    [DoHandleCallbacks2] after an [ev_async_send], or as the completion of
    an [eio_custom] task whose [DoProcess] has returned. *)
Fixpoint remove_returned (ws : list Worker) : option (list Worker) :=
  match ws with
  | [] => None
  | Returned :: ws => Some ws
  | x :: ws =>
    match remove_returned ws with
    | Some ws => Some (x :: ws)
    | None => None
    end
  end.

Definition js_notified (s : Sys) : list Sys :=
  match pushing s, handling s, notify_ (world s) with
  | None, false, true =>
    [mkSys (set_notify_ false (world s)) (script s) None true (workers s)]
  | _, _, _ => []
  end.

Definition js_task_done (s : Sys) : list Sys :=
  match pushing s, handling s, remove_returned (workers s) with
  | None, false, Some ws => [mkSys (world s) (script s) None true ws]
  | _, _, _ => []
  end.

(** One turn of the loop of [DoHandleCallbacks]. *)
Definition js_handle (s : Sys) : list Sys :=
  match pushing s, handling s with
  | None, true =>
    match ReentrantPop_callbacks (world s) with
    | (Some request, w) =>
      [mkSys (handle request w) (script s) None true (workers s)]
    | (None, w) => [mkSys w (script s) None false (workers s)]
    end
  | _, _ => []
  end.

(** A thread of the pool starts a task queued by [eio_custom]. *)
Definition task_start (s : Sys) : list Sys :=
  match tasks_ (world s) with
  | S n =>
    [mkSys (set_tasks_ n (world s)) (script s) (pushing s) (handling s)
       (workers s ++ [AtPop])]
  | O => []
  end.

(** One step of a worker: a locked section, the execution of a request,
    or what follows an unlock. *)
Definition worker_step (fuel : nat) (x : Worker) (w : World)
  : option (Worker * World) :=
  match x with
  | AtPop =>
    match ReentrantPop_requests w with
    | (Some request, w) => Some (AtSwitch request, w)
    | (None, w) => Some (AtRecheck, w)
    end
  | AtSwitch request =>
    match execute fuel request w with
    | Some (request, w) => Some (AtComplete request, w)
    | None => None
    end
  | AtComplete request =>
    match complete_locked request w with
    | (success, w) => Some (AtNotify success, w)
    end
  | AtNotify success => Some (AtPop, complete_unlocked success w)
  | AtRecheck =>
    match recheck w with
    | (true, w) => Some (AtPop, w)
    | (false, w) => Some (Returned, w)
    end
  | Returned => None
  end.

Fixpoint workers_step (fuel : nat) (s : Sys) (before after : list Worker)
  : list Sys :=
  match after with
  | [] => []
  | x :: after' =>
    match worker_step fuel x (world s) with
    | Some (x', w) =>
      [mkSys w (script s) (pushing s) (handling s) (before ++ x' :: after')]
    | None => []
    end ++ workers_step fuel s (before ++ [x]) after'
  end.

(** Every state one step away. *)
Definition next (fuel : nat) (s : Sys) : list Sys :=
  js_call s ++ js_return s ++ js_notified s ++ js_task_done s ++ js_handle s
  ++ task_start s ++ workers_step fuel s [] (workers s).

Inductive reachable (fuel : nat) (s0 : Sys) : Sys -> Prop :=
| reachable_start : reachable fuel s0 s0
| reachable_step s s' :
    reachable fuel s0 s -> In s' (next fuel s) -> reachable fuel s0 s'.

(** The system around an instance that no thread works on yet. *)
Definition boot (w : World) (calls : list JsCall) : Sys :=
  mkSys w calls None false [].

(** The workers that are in the loop of [DoProcess()]. *)
Definition in_loop (x : Worker) : bool :=
  match x with Returned => false | _ => true end.

(** The workers that are executing a request. *)
Definition executing (x : Worker) : bool :=
  match x with AtSwitch _ => true | _ => false end.

Definition live (ws : list Worker) : nat := List.length (filter in_loop ws).

Definition busy (ws : list Worker) : nat := List.length (filter executing ws).

(** The task that [PushRequest] is about to hand to [eio_custom]. *)
Definition about_to_start (pushing : option (bool * bool)) : nat :=
  match pushing with
  | Some (true, true) => 1
  | _ => 0
  end.

(** The dispatch flag counts the dispatch there is: the workers in the
    loop, the tasks queued, and the task about to be queued. *)
Definition single_flight (s : Sys) : Prop :=
  (live (workers s) + tasks_ (world s) + about_to_start (pushing s))%nat
  = (if processorActive_ (world s) then 1 else 0)%nat.

(** What the stream state machine leaves alone. *)
Definition frame (w w' : World) : Prop :=
  requestsQueue_ w' = requestsQueue_ w
  /\ processorActive_ w' = processorActive_ w
  /\ callbackQueue_ w' = callbackQueue_ w
  /\ tasks_ w' = tasks_ w
  /\ delivered_ w' = delivered_ w.

(** ** Vocabulary of the specification *)

(** The contract the spec puts on the processor's transform: called
    repeatedly, the input still to consume shrinks. *)
Definition Write_shrinks : Prop :=
  forall p data n out,
    0 < n ->
    IsError (wr_ret (processor_Write p data n out)) = false ->
    wr_ret (processor_Write p data n out) <> StatusEndOfStream ->
    wr_dataLength (processor_Write p data n out) < n.

(** [Finish] can be called until the stream ends: [budget] bounds the
    calls that neither fail nor end it. *)
Definition Finish_bounded (budget : P -> nat) : Prop :=
  forall p out,
    IsError (fr_ret (processor_Finish p out)) = false ->
    fr_ret (processor_Finish p out) <> StatusEndOfStream ->
    (budget (fr_processor (processor_Finish p out)) < budget p)%nat.

(** The calls of a [Write] that starts with [n] bytes to consume, with
    the status it returns and the state it leaves, as the spec words
    them: before each call of the transform the output is grown by the
    remaining input length and one byte more; the calls go on until the
    input is consumed or the stream ends; an error of the transform, or a
    failed growth, ends them in [Error]. *)
Inductive Write_run : Z -> list Call -> Z -> State -> Prop :=
| Write_consumed n :
    n <= 0 -> Write_run n [] StatusOk Data
| Write_no_memory n :
    0 < n -> Write_run n [CGrowBy (n + 1) false] StatusMemoryError Error
| Write_error n ret left :
    0 < n -> IsError ret = true ->
    Write_run n [CGrowBy (n + 1) true; CWrite n ret left] ret Error
| Write_end_of_stream n left :
    0 < n -> IsError StatusEndOfStream = false ->
    Write_run n [CGrowBy (n + 1) true; CWrite n StatusEndOfStream left]
      StatusEndOfStream Eos
| Write_more n ret left calls ret' s :
    0 < n -> IsError ret = false -> ret <> StatusEndOfStream ->
    Write_run left calls ret' s ->
    Write_run n (CGrowBy (n + 1) true :: CWrite n ret left :: calls) ret' s.

(** The calls of a [Finish] with the status it returns: growth by 128
    bytes before each call of the processor's finish; the calls go on
    until the stream ends; an error, or a failed growth, is the last
    call. *)
Inductive Finish_run : list Call -> Z -> Prop :=
| Finish_no_memory :
    Finish_run [CGrowBy 128 false] StatusMemoryError
| Finish_error ret :
    IsError ret = true -> Finish_run [CGrowBy 128 true; CFinish ret] ret
| Finish_end_of_stream :
    IsError StatusEndOfStream = false ->
    Finish_run [CGrowBy 128 true; CFinish StatusEndOfStream] StatusOk
| Finish_more ret calls ret' :
    IsError ret = false -> ret <> StatusEndOfStream ->
    Finish_run calls ret' ->
    Finish_run (CGrowBy 128 true :: CFinish ret :: calls) ret'.

(** The outcome of the next checked allocation, and the outcomes left. *)
Definition draw (heap : list bool) : bool * list bool :=
  match heap with
  | [] => (true, [])
  | ok :: rest => (ok, rest)
  end.

(** [out'] is [out] grown by [n] bytes: the bytes written so far are
    kept, and there is room for [n] bytes more. *)
Definition grown_by (n : Z) (out out' : Blob) : Prop :=
  blob_data out' = blob_data out
  /\ blob_capacity out' = blob_capacity out + n.

(** What a [Write] in state [Data] does, as the spec words it, on the
    processor [p], the allocations to come [heap], [n] bytes of [data]
    still to consume and the output [out]: the calls, the status
    returned, the state left, and the output, the processor and the
    allocations as they are then.  While input remains, the output is
    grown by the remaining length and one byte more, and the transform
    of the processor is called on the remaining input and the grown
    output; its status decides: an error is returned and leaves [Error],
    the end of the stream is returned and leaves [Eos], anything else
    goes on with what the transform left of input, output and processor.
    A growth that is refused returns [StatusMemoryError] and leaves
    [Error]; no input left returns [StatusOk] and leaves [Data]. *)
Inductive Write_does (data : list byte)
  : P -> list bool -> Z -> Blob ->
    list Call -> Z -> State -> Blob -> P -> list bool -> Prop :=
| Write_does_consumed p heap n out :
    n <= 0 ->
    Write_does data p heap n out [] StatusOk Data out p heap
| Write_does_no_memory p heap heap' n out :
    0 < n -> draw heap = (false, heap') ->
    Write_does data p heap n out
      [CGrowBy (n + 1) false] StatusMemoryError Error out p heap'
| Write_does_error p heap heap' n out out1 r :
    0 < n -> draw heap = (true, heap') -> grown_by (n + 1) out out1 ->
    r = processor_Write p (remaining data n) n out1 ->
    IsError (wr_ret r) = true ->
    Write_does data p heap n out
      [CGrowBy (n + 1) true; CWrite n (wr_ret r) (wr_dataLength r)]
      (wr_ret r) Error (wr_out r) (wr_processor r) heap'
| Write_does_end_of_stream p heap heap' n out out1 r :
    0 < n -> draw heap = (true, heap') -> grown_by (n + 1) out out1 ->
    r = processor_Write p (remaining data n) n out1 ->
    IsError (wr_ret r) = false -> wr_ret r = StatusEndOfStream ->
    Write_does data p heap n out
      [CGrowBy (n + 1) true; CWrite n (wr_ret r) (wr_dataLength r)]
      StatusEndOfStream Eos (wr_out r) (wr_processor r) heap'
| Write_does_more p heap heap' n out out1 r calls ret s out' p' heap'' :
    0 < n -> draw heap = (true, heap') -> grown_by (n + 1) out out1 ->
    r = processor_Write p (remaining data n) n out1 ->
    IsError (wr_ret r) = false -> wr_ret r <> StatusEndOfStream ->
    Write_does data (wr_processor r) heap' (wr_dataLength r) (wr_out r)
      calls ret s out' p' heap'' ->
    Write_does data p heap n out
      (CGrowBy (n + 1) true :: CWrite n (wr_ret r) (wr_dataLength r) :: calls)
      ret s out' p' heap''.

(** What a [Finish] does, as the spec words it, on the processor [p], the
    allocations to come [heap] and the output [out]: the calls, the
    status returned, and the output, the processor and the allocations
    as they are then.  The output is grown by 128 bytes and the finish of
    the processor is called on the grown output; an error is returned at
    once, the end of the stream returns [StatusOk], anything else goes on
    with the output and the processor as the call left them.  A growth
    that is refused returns [StatusMemoryError] at once. *)
Inductive Finish_does
  : P -> list bool -> Blob -> list Call -> Z -> Blob -> P -> list bool -> Prop :=
| Finish_does_no_memory p heap heap' out :
    draw heap = (false, heap') ->
    Finish_does p heap out [CGrowBy 128 false] StatusMemoryError out p heap'
| Finish_does_error p heap heap' out out1 r :
    draw heap = (true, heap') -> grown_by 128 out out1 ->
    r = processor_Finish p out1 ->
    IsError (fr_ret r) = true ->
    Finish_does p heap out [CGrowBy 128 true; CFinish (fr_ret r)]
      (fr_ret r) (fr_out r) (fr_processor r) heap'
| Finish_does_end_of_stream p heap heap' out out1 r :
    draw heap = (true, heap') -> grown_by 128 out out1 ->
    r = processor_Finish p out1 ->
    IsError (fr_ret r) = false -> fr_ret r = StatusEndOfStream ->
    Finish_does p heap out [CGrowBy 128 true; CFinish (fr_ret r)]
      StatusOk (fr_out r) (fr_processor r) heap'
| Finish_does_more p heap heap' out out1 r calls ret out' p' heap'' :
    draw heap = (true, heap') -> grown_by 128 out out1 ->
    r = processor_Finish p out1 ->
    IsError (fr_ret r) = false -> fr_ret r <> StatusEndOfStream ->
    Finish_does (fr_processor r) heap' (fr_out r) calls ret out' p' heap'' ->
    Finish_does p heap out (CGrowBy 128 true :: CFinish (fr_ret r) :: calls)
      ret out' p' heap''.

(** The clause of the spec on closing a stream that is at its end or in
    error, as it is worded: [Close] hands back the status that the earlier
    outcome had. *)
Definition Close_returns_earlier_status : Prop :=
  forall fuel data n out w ret out1 w1,
    Write fuel data n out w = Some (ret, out1, w1) ->
    state_ w1 = Eos \/ state_ w1 = Error ->
    forall out', exists out2 w2, Close fuel out' w1 = Some (ret, out2, w2).

(** The same request with another callback. *)
Definition with_callback (cb : option nat) (r : Request) : Request :=
  mkRequest (kind_ r) (data_ r) (length_ r) cb (out_ r) (status_ r).

(** A callback argument that is there and defined but is no function. *)
Definition bad_callback (args : list Value) (i : nat) : bool :=
  (i <? List.length args)%nat && negb (IsUndefined (arg args i))
  && negb (IsFunction (arg args i)).

(** A callback argument that is left out or undefined. *)
Definition no_callback (args : list Value) (i : nat) : bool :=
  negb ((i <? List.length args)%nat && negb (IsUndefined (arg args i))).

(** Whether the next checked allocation succeeds. *)
Definition granted (w : World) : bool := fst (allocate w).

(** How often a log has [processor_.Destroy()]. *)
Definition is_CDestroy (c : Call) : bool :=
  match c with CDestroy => true | _ => false end.

Definition releases_in (calls : list Call) : nat :=
  List.length (filter is_CDestroy calls).

(** The processor is released at most once, and not while the state still
    asks for a release. *)
Definition released_once (w : World) : Prop :=
  (releases_in (calls_ w) <= 1)%nat
  /\ (releases (state_ w) = true -> releases_in (calls_ w) = 0%nat).

(** Requests executed one after the other, as a single worker does. *)
Fixpoint execute_all (fuel : nat) (requests : list Request) (w : World)
  : option World :=
  match requests with
  | [] => Some w
  | request :: requests =>
    match execute fuel request w with
    | Some (_, w) => execute_all fuel requests w
    | None => None
    end
  end.

(** The callback invocations that a queue of completed requests stands
    for. *)
Definition delivery_of (request : Request) : list Delivery :=
  match callback_ request with
  | Some f => [mkDelivery f (status request) (blob_data (out_ request))]
  | None => []
  end.

(** A worker carries out a request that has no callback.  [DoProcess],
    started on [w] with the request alone in the queue, returns when the
    operation on the stream does, [result] being what that operation
    returned: its status, the output and the instance as it left them.
    [DoProcess] then leaves the state, the processor and the calls made
    on it as the operation left them, the queue empty and the dispatch
    flag cleared; when the push is granted the request is last in the
    callback queue with that status and that output; and
    [DoHandleCallbacks] then takes it off and invokes nothing. *)
Definition carried_out (fuel : nat) (request : Request) (w : World)
  (result : option (Z * Blob * World)) : Prop :=
  match result with
  | Some (ret, out, w') =>
    exists w2,
      DoProcess fuel w = Some w2
      /\ state_ w2 = state_ w'
      /\ processor_ w2 = processor_ w'
      /\ calls_ w2 = calls_ w'
      /\ requestsQueue_ w2 = []
      /\ processorActive_ w2 = false
      /\ delivered_ w2 = delivered_ w
      /\ (granted w' = true ->
          callbackQueue_ w2
          = callbackQueue_ w ++ [setStatus ret (setOutput out request)]
          /\ (callbackQueue_ w = [] ->
              exists w3,
                DoHandleCallbacks fuel w2 = Some w3
                /\ callbackQueue_ w3 = []
                /\ delivered_ w3 = delivered_ w
                /\ state_ w3 = state_ w'))
  | None => DoProcess fuel w = None
  end.

(** ** More vocabulary *)

(** The fields that belong to the queues, the dispatch and the host
    runtime are the same in both worlds. *)
Definition untouched (w w' : World) : Prop :=
  requestsQueue_ w' = requestsQueue_ w
  /\ processorActive_ w' = processorActive_ w
  /\ callbackQueue_ w' = callbackQueue_ w
  /\ refs_ w' = refs_ w
  /\ loop_refs_ w' = loop_refs_ w
  /\ tasks_ w' = tasks_ w
  /\ notify_ w' = notify_ w
  /\ delivered_ w' = delivered_ w.

(** The status a request gets on a destroyed instance. *)
Definition status_when_destroyed (k : Kind) : Z :=
  match k with
  | RWrite => StatusSequenceError
  | RClose | RDestroy => StatusOk
  end.

(** What tells a request apart from its status and output. *)
Definition identity_of (r : Request) : Kind * list byte * option nat :=
  (kind_ r, data_ r, callback_ r).

(** The steps of the scheduling model, one constructor per kind of
    step. *)
Inductive Step (fuel : nat) (s : Sys) : Sys -> Prop :=
| Step_rejected c rest e :
    pushing s = None -> script s = c :: rest ->
    request_of c (world s) = inl e ->
    Step fuel s (mkSys (world s) rest None (handling s) (workers s))
| Step_no_request c rest w :
    pushing s = None -> script s = c :: rest ->
    request_of c (world s) = inr (None, w) ->
    Step fuel s (mkSys w rest None (handling s) (workers s))
| Step_locked c rest request w pushed startProcessing w' :
    pushing s = None -> script s = c :: rest ->
    request_of c (world s) = inr (Some request, w) ->
    PushRequest_locked request w = (pushed, startProcessing, w') ->
    Step fuel s
      (mkSys w' rest (Some (pushed, startProcessing)) (handling s)
         (workers s))
| Step_unlocked pushed startProcessing :
    pushing s = Some (pushed, startProcessing) ->
    Step fuel s
      (mkSys (snd (PushRequest_unlocked pushed startProcessing (world s)))
         (script s) None (handling s) (workers s))
| Step_notified :
    pushing s = None -> handling s = false -> notify_ (world s) = true ->
    Step fuel s
      (mkSys (set_notify_ false (world s)) (script s) None true (workers s))
| Step_task_done ws :
    pushing s = None -> handling s = false ->
    remove_returned (workers s) = Some ws ->
    Step fuel s (mkSys (world s) (script s) None true ws)
| Step_handle request q :
    pushing s = None -> handling s = true ->
    callbackQueue_ (world s) = request :: q ->
    Step fuel s
      (mkSys (handle request (set_callbackQueue_ q (world s))) (script s)
         None true (workers s))
| Step_handled :
    pushing s = None -> handling s = true ->
    callbackQueue_ (world s) = [] ->
    Step fuel s (mkSys (world s) (script s) None false (workers s))
| Step_task n :
    tasks_ (world s) = S n ->
    Step fuel s
      (mkSys (set_tasks_ n (world s)) (script s) (pushing s) (handling s)
         (workers s ++ [AtPop]))
| Step_worker b x a x' w' :
    workers s = b ++ x :: a ->
    worker_step fuel x (world s) = Some (x', w') ->
    Step fuel s
      (mkSys w' (script s) (pushing s) (handling s) (b ++ x' :: a)).

(** The JavaScript thread makes a call and runs it to its end, and so a
    list of calls one after the other, no other thread in between. *)
Definition submit (c : JsCall) (w : World) : World :=
  match c with
  | CallWrite args => snd (Write_args args w)
  | CallClose args => snd (Close_args args w)
  | CallDestroy args => snd (Destroy_args args w)
  end.

Definition submit_all (calls : list JsCall) (w : World) : World :=
  fold_left (fun w c => submit c w) calls w.

(** A queued request has a dispatch: the flag is set while the request
    queue is not empty. *)
Definition attended (s : Sys) : Prop :=
  requestsQueue_ (world s) <> [] -> processorActive_ (world s) = true.

(** The callbacks of a list of requests, in order. *)
Definition callback_ids (l : list Request) : list nat :=
  flat_map
    (fun r => match callback_ r with Some f => [f] | None => [] end) l.

(** The request a worker has popped and not yet queued for its
    callback. *)
Definition in_flight (x : Worker) : list Request :=
  match x with
  | AtSwitch r | AtComplete r => [r]
  | _ => []
  end.

(** The callbacks invoked, then those still to invoke in the order in
    which the code as it stands will invoke them. *)
Definition pipeline (s : Sys) : list nat :=
  map d_callback (delivered_ (world s))
  ++ callback_ids (callbackQueue_ (world s))
  ++ callback_ids (flat_map in_flight (workers s))
  ++ callback_ids (requestsQueue_ (world s)).

(** [setStatus] has been called on the request. *)
Definition has_status (r : Request) : Prop := status_ r <> None.

Definition completed (x : Worker) : Prop :=
  match x with
  | AtComplete r => has_status r
  | _ => True
  end.

(** Every request that is queued for its callback, or about to be, has
    its status. *)
Definition statuses_set (s : Sys) : Prop :=
  Forall has_status (callbackQueue_ (world s))
  /\ Forall completed (workers s).

(** The callback that a call passes, when the call is well formed and
    passes one. *)
Definition callback_arg (args : list Value) (i : nat) : list nat :=
  if (i <? List.length args)%nat && negb (IsUndefined (arg args i))
  then match Cast (arg args i) with Some f => [f] | None => [] end
  else [].

Definition call_callback (c : JsCall) : list nat :=
  match c with
  | CallWrite args =>
    if HasInstance (arg args 0) then callback_arg args 1 else []
  | CallClose args => callback_arg args 0
  | CallDestroy _ => []
  end.

(** The callbacks invoked and to invoke are those of the calls made so
    far, in the order of the calls, no allocation being refused. *)
Definition in_call_order (calls : list JsCall) (s : Sys) : Prop :=
  heap_ (world s) = []
  /\ exists made,
      calls = made ++ script s
      /\ pipeline s = flat_map call_callback made.

End ZipLib.

Arguments World : clear implicits.
Arguments Sys : clear implicits.

(** ** Processors to run the model on *)

(** A pass-through processor with the status codes of zlib: [Write]
    copies as much of its input as the output has room for and reports a
    buffer error when there is no room at all, [Finish] has nothing left
    to emit. *)
Definition passthrough_Write (p : unit) (data : list byte) (dataLength : Z)
  (out : Blob) : WriteResult unit :=
  if blob_avail out <=? 0 then mkWriteResult tt dataLength out (-5)
  else
    let n := Z.min dataLength (blob_avail out) in
    mkWriteResult tt (dataLength - n)
      (mkBlob (blob_data out ++ firstn (Z.to_nat n) data) (blob_capacity out))
      0.

#[local] Instance passthrough : Processor unit := {|
  StatusOk := 0;
  StatusSequenceError := -2;
  StatusMemoryError := -4;
  StatusEndOfStream := 1;
  IsError := fun ret => ret <? 0;
  processor_new := tt;
  processor_Init := fun p args => (tt, Undefined);
  processor_Write := passthrough_Write;
  processor_Finish := fun p out => mkFinishResult tt out 1;
  processor_Destroy := fun p => tt
|}.

(** A processor that plays back the status codes it is given, one per
    call, consuming one byte of input per [Write] and emitting nothing;
    once the codes are used up, [Write] consumes everything and [Finish]
    ends the stream. *)
Definition playback_Write (codes : list Z) (data : list byte) (dataLength : Z)
  (out : Blob) : WriteResult (list Z) :=
  match codes with
  | ret :: codes => mkWriteResult codes (dataLength - 1) out ret
  | [] => mkWriteResult [] 0 out 0
  end.

Definition playback_Finish (codes : list Z) (out : Blob)
  : FinishResult (list Z) :=
  match codes with
  | ret :: codes => mkFinishResult codes out ret
  | [] => mkFinishResult [] out 1
  end.

Definition playback_Init (codes : list Z) (args : list Value)
  : list Z * Value :=
  (flat_map (fun v => match v with Number n => [n] | _ => [] end) args,
   Undefined).

#[local] Instance playback : Processor (list Z) := {|
  StatusOk := 0;
  StatusSequenceError := -2;
  StatusMemoryError := -4;
  StatusEndOfStream := 1;
  IsError := fun ret => ret <? 0;
  processor_new := [];
  processor_Init := playback_Init;
  processor_Write := playback_Write;
  processor_Finish := playback_Finish;
  processor_Destroy := fun codes => codes
|}.

(** ** The scenario of the spec: [write("AB")], [write("CD")], [close()] *)

Definition AB : list byte := [x41; x42].

Definition CD : list byte := [x43; x44].

(** The instance that [New] makes of the pass-through processor, every
    allocation granted. *)
Definition fresh : World unit :=
  match snd (New (processor := passthrough) [] []) with
  | Some w => w
  | None => ZipLib_ctor []
  end.

(** The three calls, with the callbacks numbered 1, 2 and 3. *)
Definition three_calls : list JsCall :=
  [CallWrite [BufferV AB; FunctionV 1];
   CallWrite [BufferV CD; FunctionV 2];
   CallClose [FunctionV 3]].

Definition three_callbacks : list Delivery :=
  [mkDelivery 1 0 AB; mkDelivery 2 0 CD; mkDelivery 3 0 []].

(** An instance of the playback processor, made by [New] with the codes
    as arguments. *)
Definition playing (codes : list Z) : World (list Z) :=
  match snd (New (processor := playback) (map Number codes) []) with
  | Some w => w
  | None => ZipLib_ctor []
  end.

(** *** Deciding equality of system states *)

Definition Blob_eq_dec (a b : Blob) : {a = b} + {a <> b}.
Proof.
  decide equality; [apply Z.eq_dec|apply (list_eq_dec Byte.byte_eq_dec)].
Defined.

Definition Request_eq_dec (a b : Request) : {a = b} + {a <> b}.
Proof.
  decide equality; try apply Z.eq_dec; try apply Blob_eq_dec;
    try apply (list_eq_dec Byte.byte_eq_dec).
  - decide equality. apply Z.eq_dec.
  - decide equality. apply Nat.eq_dec.
  - decide equality.
Defined.

Definition Delivery_eq_dec (a b : Delivery) : {a = b} + {a <> b}.
Proof.
  decide equality; try apply Z.eq_dec; try apply Nat.eq_dec;
    apply (list_eq_dec Byte.byte_eq_dec).
Defined.

Definition Call_eq_dec (a b : Call) : {a = b} + {a <> b}.
Proof. decide equality; try apply Z.eq_dec; apply Bool.bool_dec. Defined.

Definition State_eq_dec (a b : State) : {a = b} + {a <> b}.
Proof. decide equality. Defined.

Definition World_eq_dec (a b : World unit) : {a = b} + {a <> b}.
Proof.
  decide equality; try apply Z.eq_dec; try apply Nat.eq_dec;
    try apply Bool.bool_dec; try apply State_eq_dec;
    try apply (list_eq_dec Call_eq_dec);
    try apply (list_eq_dec Delivery_eq_dec);
    try apply (list_eq_dec Request_eq_dec);
    try apply (list_eq_dec Bool.bool_dec).
  decide equality.
Defined.

Definition Value_eq_dec (a b : Value) : {a = b} + {a <> b}.
Proof.
  decide equality; try apply Z.eq_dec; try apply Nat.eq_dec;
    try apply string_dec; apply (list_eq_dec Byte.byte_eq_dec).
Defined.

Definition Worker_eq_dec (a b : Worker) : {a = b} + {a <> b}.
Proof.
  decide equality; try apply Request_eq_dec; apply Bool.bool_dec.
Defined.

Definition JsCall_eq_dec (a b : JsCall) : {a = b} + {a <> b}.
Proof. decide equality; apply (list_eq_dec Value_eq_dec). Defined.

Definition Sys_eq_dec (a b : Sys unit) : {a = b} + {a <> b}.
Proof.
  decide equality; try apply (list_eq_dec Worker_eq_dec);
    try apply Bool.bool_dec; try apply (list_eq_dec JsCall_eq_dec);
    try apply World_eq_dec.
  decide equality. decide equality; apply Bool.bool_dec.
Defined.

(** *** Exploring the states of the scenario *)

Definition known (s : Sys unit) (l : list (Sys unit)) : bool :=
  if in_dec Sys_eq_dec s l then true else false.

(** The states found from [frontier], added to [seen], within [n]
    visits. *)
Fixpoint explore (fuel : nat) (n : nat) (frontier seen : list (Sys unit))
  : list (Sys unit) :=
  match n with
  | O => seen
  | S n =>
    match frontier with
    | [] => seen
    | s :: rest =>
      if known s seen then explore fuel n rest seen
      else explore fuel n (next fuel s ++ rest) (s :: seen)
    end
  end.

(** [l] holds every state one step away from a state it holds. *)
Definition closed (fuel : nat) (l : list (Sys unit)) : bool :=
  forallb (fun s => forallb (fun s' => known s' l) (next fuel s)) l.

Definition scenario_states : list (Sys unit) :=
  explore 2 4000 [boot fresh three_calls] [].

Fixpoint starts_with (l prefix : list Delivery) : bool :=
  match prefix, l with
  | [], _ => true
  | x :: prefix, y :: l =>
    if Delivery_eq_dec x y then starts_with l prefix else false
  | _ :: _, [] => false
  end.

(** No step left to take. *)
Definition at_rest (fuel : nat) (s : Sys unit) : bool :=
  match next fuel s with [] => true | _ => false end.

(** What the scenario asks of a state: the callbacks invoked so far are
    the first of the three expected; at rest, they are all three and the
    instance is destroyed. *)
Definition scenario_ok (s : Sys unit) : bool :=
  starts_with three_callbacks (delivered_ (world s))
  && (if at_rest 2 s
      then (if list_eq_dec Delivery_eq_dec (delivered_ (world s))
                 three_callbacks then true else false)
           && State_eqb (state_ (world s)) Destroyed
      else true).

(** The scenario after its first call, the start of the task and the
    first pop: a worker holds the first request. *)
Definition first_of (l : list (Sys unit)) (otherwise : Sys unit) : Sys unit :=
  match l with s :: _ => s | [] => otherwise end.

Definition called : Sys unit :=
  first_of (js_call (boot fresh three_calls)) (boot fresh three_calls).

Definition queued : Sys unit := first_of (js_return called) called.

Definition started : Sys unit := first_of (task_start queued) queued.

Definition popped : Sys unit :=
  first_of (workers_step 2 started [] (workers started)) started.

(** The scenario run on by always taking the first step there is. *)
Fixpoint onward (n : nat) (s : Sys unit) : Sys unit :=
  match n with
  | O => s
  | S n => onward n (first_of (next 2 s) s)
  end.

Definition resting : Sys unit := onward 48 (boot fresh three_calls).

(** The scenario ten steps on: the first request is executed and waits
    in the callback queue. *)
Definition first_completed : Sys unit := onward 10 (boot fresh three_calls).

(** A close, a destroy and a close again, as requests without callbacks. *)
Definition close_destroy_close : list Request :=
  [mkRequest RClose [] 0 None Blob_new None;
   mkRequest RDestroy [] 0 None Blob_new None;
   mkRequest RClose [] 0 None Blob_new None].

Definition closed_again : World unit :=
  match execute_all 2 close_destroy_close fresh with
  | Some w => w
  | None => fresh
  end.

(** The first request of the scenario, and what a worker makes of it. *)
Definition first_write : Request :=
  mkRequest RWrite AB 2 (Some 1%nat) Blob_new None.

Definition written : Request * World unit :=
  match execute 2 first_write fresh with
  | Some done => done
  | None => (first_write, fresh)
  end.

(** The instance after the three calls, and after [DoProcess]. *)
Definition submitted : World unit :=
  snd (Close_args [FunctionV 3]
         (snd (Write_args [BufferV CD; FunctionV 2]
                 (snd (Write_args [BufferV AB; FunctionV 1] fresh))))).

Definition processed : World unit :=
  match DoProcess 4 submitted with
  | Some w => w
  | None => submitted
  end.

(** The work a state still has ahead of it, weighted so that every step
    of the scenario uses some up. *)
Definition worker_effort (drained : bool) (x : Worker) : nat :=
  match x with
  | AtPop => 4
  | AtSwitch _ => 10
  | AtComplete _ => 9
  | AtNotify _ => 7
  | AtRecheck => if drained then 3 else 5
  | Returned => 2
  end.

Definition effort (s : Sys unit) : nat :=
  (16 * List.length (script s)
   + match pushing s with Some _ => 6 | None => 0 end
   + 7 * List.length (requestsQueue_ (world s))
   + 5 * tasks_ (world s)
   + list_sum
       (map (worker_effort
               (match requestsQueue_ (world s) with
                | [] => true
                | _ => false
                end))
          (workers s))
   + List.length (callbackQueue_ (world s))
   + (if notify_ (world s) then 2 else 0)
   + (if handling s then 1 else 0))%nat.

(** Every step from a state of [l] lowers [effort]. *)
Definition lowering (fuel : nat) (l : list (Sys unit)) : bool :=
  forallb
    (fun s => forallb (fun s' => (effort s' <? effort s)%nat) (next fuel s))
    l.

(** * Properties *)

Lemma State_eqb_eq (a b : State) : State_eqb a b = true <-> a = b.
Proof. destruct a, b; simpl; split; congruence. Qed.

Lemma State_eqb_refl (a : State) : State_eqb a a = true.
Proof. now destruct a. Qed.

Section Properties.

Context {P : Type} {processor : Processor P}.

Implicit Types (w : World P) (out : Blob) (t : Transition).

Lemma set_state_same w : set_state_ (state_ w) w = w.
Proof. now destruct w. Qed.

Lemma leave_abort t w : leave (abort t) w = w.
Proof. unfold leave, Transition_commit; simpl. apply set_state_same. Qed.

Lemma state_Destroy w : state_ (Destroy w) = Destroyed.
Proof. reflexivity. Qed.

Lemma Destroy_cases w :
  Destroy w =
  set_state_ Destroyed (if releases (state_ w) then call_Destroy w else w).
Proof. unfold Destroy. now destruct (state_ w). Qed.

Lemma Destroy_Destroy w : Destroy (Destroy w) = Destroy w.
Proof.
  rewrite (Destroy_cases (Destroy w)), state_Destroy. simpl.
  rewrite <- (state_Destroy w) at 1. apply set_state_same.
Qed.

(** *** The calls [GrowBy], [processor_.Write] and [processor_.Finish] *)

Lemma GrowBy_effect n out w :
  exists grown out' w',
    GrowBy n out w = (grown, out', w')
    /\ state_ w' = state_ w
    /\ processor_ w' = processor_ w
    /\ calls_ w' = calls_ w ++ [CGrowBy n grown]
    /\ (grown = false -> out' = out)
    /\ (grown = true ->
        blob_data out' = blob_data out
        /\ blob_capacity out' = blob_capacity out + n).
Proof.
  unfold GrowBy, allocate, Blob_GrowBy.
  destruct (heap_ w) as [|[] rest]; simpl; eexists _, _, _;
    (split; [reflexivity|]); simpl; repeat split; congruence.
Qed.

Lemma call_Write_effect data n out w :
  exists ret left out' w',
    call_Write data n out w = (ret, left, out', w')
    /\ ret = wr_ret (processor_Write (processor_ w) (remaining data n) n out)
    /\ left =
       wr_dataLength (processor_Write (processor_ w) (remaining data n) n out)
    /\ state_ w' = state_ w
    /\ calls_ w' = calls_ w ++ [CWrite n ret left].
Proof. unfold call_Write. eexists _, _, _, _. repeat split. Qed.

Lemma call_Finish_effect out w :
  exists ret out' w',
    call_Finish out w = (ret, out', w')
    /\ ret = fr_ret (processor_Finish (processor_ w) out)
    /\ processor_ w' = fr_processor (processor_Finish (processor_ w) out)
    /\ state_ w' = state_ w
    /\ calls_ w' = calls_ w ++ [CFinish ret].
Proof. unfold call_Finish. eexists _, _, _. repeat split. Qed.

Lemma GrowBy_draw n out w :
  exists grown out' w',
    GrowBy n out w = (grown, out', w')
    /\ draw (heap_ w) = (grown, heap_ w')
    /\ state_ w' = state_ w
    /\ processor_ w' = processor_ w
    /\ calls_ w' = calls_ w ++ [CGrowBy n grown]
    /\ (grown = false -> out' = out)
    /\ (grown = true -> grown_by n out out').
Proof.
  unfold GrowBy, allocate, Blob_GrowBy, grown_by, draw.
  destruct (heap_ w) as [|[] rest] eqn:Hh; simpl; eexists _, _, _;
    (split; [reflexivity|]); simpl; rewrite ?Hh; repeat split; congruence.
Qed.

Lemma call_Write_does data n out w :
  let r := processor_Write (processor_ w) (remaining data n) n out in
  exists w',
    call_Write data n out w = (wr_ret r, wr_dataLength r, wr_out r, w')
    /\ processor_ w' = wr_processor r
    /\ heap_ w' = heap_ w
    /\ state_ w' = state_ w
    /\ calls_ w' = calls_ w ++ [CWrite n (wr_ret r) (wr_dataLength r)].
Proof. unfold call_Write. eexists. repeat split. Qed.

Lemma call_Finish_does out w :
  let r := processor_Finish (processor_ w) out in
  exists w',
    call_Finish out w = (fr_ret r, fr_out r, w')
    /\ processor_ w' = fr_processor r
    /\ heap_ w' = heap_ w
    /\ state_ w' = state_ w
    /\ calls_ w' = calls_ w ++ [CFinish (fr_ret r)].
Proof. unfold call_Finish. eexists. repeat split. Qed.

Lemma int_add_one n : 0 < n < INT_MAX -> int_add n 1 = n + 1.
Proof.
  unfold int_add, int_wrap, INT_MAX. intros H.
  rewrite Z.mod_small; lia.
Qed.

(** *** [Finish] *)

Lemma Finish_sound fuel : forall out w ret out' w',
  Finish fuel out w = Some (ret, out', w') ->
  state_ w' = state_ w
  /\ exists calls, calls_ w' = calls_ w ++ calls /\ Finish_run calls ret.
Proof.
  induction fuel as [|fuel IH]; intros out w ret out' w' H; [discriminate|].
  cbn [Finish] in H.
  destruct (GrowBy_effect Chunk out w)
    as (grown & out1 & w1 & E1 & Hs1 & _ & Hc1 & Hsame & _).
  rewrite E1 in H.
  destruct grown; cbv beta iota in H.
  - destruct (call_Finish_effect out1 w1)
      as (r & out2 & w2 & E2 & _ & _ & Hs2 & Hc2).
    rewrite E2 in H.
    destruct (IsError r) eqn:Herr.
    + inversion H; subst. split; [congruence|].
      exists [CGrowBy Chunk true; CFinish ret]. split.
      * rewrite Hc2, Hc1, <- app_assoc. reflexivity.
      * now apply Finish_error.
    + destruct (Z.eqb_spec r StatusEndOfStream) as [->|Hne]; simpl in H.
      * inversion H; subst. split; [congruence|].
        exists [CGrowBy Chunk true; CFinish StatusEndOfStream]. split.
        -- rewrite Hc2, Hc1, <- app_assoc. reflexivity.
        -- now apply Finish_end_of_stream.
      * apply IH in H. destruct H as (Hs & calls & Hc & Hrun).
        split; [congruence|].
        exists (CGrowBy Chunk true :: CFinish r :: calls). split.
        -- rewrite Hc, Hc2, Hc1, <- !app_assoc. reflexivity.
        -- now apply Finish_more.
  - inversion H; subst. split; [congruence|].
    exists [CGrowBy Chunk false]. split; [assumption|apply Finish_no_memory].
Qed.

Lemma Finish_terminates budget (bounded : Finish_bounded budget) fuel :
  forall out w,
    (budget (processor_ w) < fuel)%nat ->
    exists result, Finish fuel out w = Some result.
Proof.
  induction fuel as [|fuel IH]; intros out w Hfuel; [lia|].
  cbn [Finish].
  destruct (GrowBy_effect Chunk out w)
    as (grown & out1 & w1 & -> & _ & Hp1 & _).
  destruct grown; [|eauto].
  destruct (call_Finish_effect out1 w1)
    as (r & out2 & w2 & -> & Hr & Hp2 & _).
  destruct (IsError r) eqn:Herr; [eauto|].
  destruct (Z.eqb_spec r StatusEndOfStream) as [->|Hne]; simpl; [eauto|].
  apply IH. rewrite Hp2. subst r. rewrite Hp1 in *.
  specialize (bounded (processor_ w) out1 Herr Hne). lia.
Qed.

Lemma Finish_does_run p heap out calls ret out' p' heap' :
  Finish_does p heap out calls ret out' p' heap' -> Finish_run calls ret.
Proof.
  induction 1 as
    [p heap heap' out Hd
    |p heap heap' out out1 r Hd Hg Hr Herr
    |p heap heap' out out1 r Hd Hg Hr Herr Heos
    |p heap heap' out out1 r calls ret out' p' heap'' Hd Hg Hr Herr Hne _ IH].
  - apply Finish_no_memory.
  - now apply Finish_error.
  - rewrite Heos in *. now apply Finish_end_of_stream.
  - now apply Finish_more.
Qed.

Lemma Finish_does_sound fuel : forall out w ret out' w',
  Finish fuel out w = Some (ret, out', w') ->
  exists calls,
    calls_ w' = calls_ w ++ calls
    /\ Finish_does (processor_ w) (heap_ w) out calls ret out'
         (processor_ w') (heap_ w').
Proof.
  induction fuel as [|fuel IH]; intros out w ret out' w' H; [discriminate|].
  cbn [Finish] in H.
  destruct (GrowBy_draw Chunk out w)
    as (grown & out1 & w1 & E1 & Hd1 & _ & Hp1 & Hc1 & Hsame & Hgrown).
  rewrite E1 in H.
  destruct grown; cbv beta iota in H.
  - specialize (Hgrown eq_refl).
    destruct (call_Finish_does out1 w1) as (w2 & E2 & Hp2 & Hh2 & _ & Hc2).
    rewrite E2 in H. rewrite Hp1 in *.
    set (r := processor_Finish (processor_ w) out1) in *.
    destruct (IsError (fr_ret r)) eqn:Herr.
    + inversion H; subst ret out' w'; clear H.
      exists [CGrowBy Chunk true; CFinish (fr_ret r)]. split.
      * rewrite Hc2, Hc1, <- app_assoc. reflexivity.
      * rewrite Hp2, Hh2.
        now apply Finish_does_error with (out1 := out1).
    + destruct (Z.eqb_spec (fr_ret r) StatusEndOfStream) as [Heos|Hne];
        simpl in H.
      * inversion H; subst ret out' w'; clear H.
        exists [CGrowBy Chunk true; CFinish (fr_ret r)]. split.
        -- rewrite Hc2, Hc1, <- app_assoc. reflexivity.
        -- rewrite Hp2, Hh2.
           now apply Finish_does_end_of_stream with (out1 := out1).
      * apply IH in H. destruct H as (calls & Hc & Hrun).
        exists (CGrowBy Chunk true :: CFinish (fr_ret r) :: calls). split.
        -- rewrite Hc, Hc2, Hc1, <- !app_assoc. reflexivity.
        -- rewrite Hp2, Hh2 in Hrun.
           now apply Finish_does_more with (heap' := heap_ w1) (out1 := out1).
  - inversion H; subst ret out' w'; clear H.
    rewrite (Hsame eq_refl), Hp1.
    exists [CGrowBy Chunk false]. split; [assumption|].
    now apply Finish_does_no_memory.
Qed.

Lemma Finish_run_releases calls ret :
  Finish_run calls ret -> releases_in calls = 0%nat.
Proof. induction 1; simpl; auto. Qed.

(** *** [Write] *)

Lemma Write_does_run data p heap n out calls ret s out' p' heap' :
  Write_does data p heap n out calls ret s out' p' heap' ->
  Write_run n calls ret s.
Proof.
  induction 1 as
    [p heap n out Hn
    |p heap heap' n out Hn Hd
    |p heap heap' n out out1 r Hn Hd Hg Hr Herr
    |p heap heap' n out out1 r Hn Hd Hg Hr Herr Heos
    |p heap heap' n out out1 r calls ret s out' p' heap'' Hn Hd Hg Hr Herr
       Hne _ IH].
  - now apply Write_consumed.
  - now apply Write_no_memory.
  - now apply Write_error.
  - rewrite Heos in *. now apply Write_end_of_stream.
  - now apply Write_more.
Qed.

Lemma Write_loop_does (shrinks : Write_shrinks) fuel :
  forall data n out w,
    n < INT_MAX ->
    (Z.to_nat n <= fuel)%nat ->
    exists ret t' out' w' calls,
      Write_loop fuel data n (Transition_new Error) out w
      = Some (ret, t', out', w')
      /\ state_ w' = state_ w
      /\ calls_ w' = calls_ w ++ calls
      /\ Write_does data (processor_ w) (heap_ w) n out calls ret
           (Transition_commit t' Data) out' (processor_ w') (heap_ w').
Proof.
  induction fuel as [|fuel IH]; intros data n out w Hmax Hfuel.
  - assert (Hn : n <= 0) by lia.
    exists StatusOk, (abort (Transition_new Error)), out, w, [].
    cbn [Write_loop]. destruct (Z.gtb_spec n 0) as [Hpos|_]; [lia|].
    rewrite app_nil_r. repeat split. now apply Write_does_consumed.
  - cbn [Write_loop].
    destruct (Z.gtb_spec n 0) as [Hpos|Hn].
    2:{ exists StatusOk, (abort (Transition_new Error)), out, w, [].
        rewrite app_nil_r. repeat split. now apply Write_does_consumed. }
    rewrite int_add_one by lia.
    destruct (GrowBy_draw (n + 1) out w)
      as (grown & out1 & w1 & -> & Hd1 & Hs1 & Hp1 & Hc1 & Hsame & Hgrown).
    destruct grown.
    2:{ exists StatusMemoryError, (Transition_new Error), out1, w1,
          [CGrowBy (n + 1) false].
        rewrite (Hsame eq_refl), Hp1.
        repeat split; try assumption. now apply Write_does_no_memory. }
    specialize (Hgrown eq_refl).
    destruct (call_Write_does data n out1 w1)
      as (w2 & -> & Hp2 & Hh2 & Hs2 & Hc2).
    rewrite Hp1 in *.
    set (r := processor_Write (processor_ w) (remaining data n) n out1) in *.
    destruct (IsError (wr_ret r)) eqn:Herr.
    { exists (wr_ret r), (Transition_new Error), (wr_out r), w2,
        [CGrowBy (n + 1) true; CWrite n (wr_ret r) (wr_dataLength r)].
      repeat split; try congruence.
      - rewrite Hc2, Hc1, <- app_assoc. reflexivity.
      - rewrite Hp2, Hh2. now apply Write_does_error with (out1 := out1). }
    destruct (Z.eqb_spec (wr_ret r) StatusEndOfStream) as [Heos|Hne].
    { exists (wr_ret r), (alter (Transition_new Error) Eos), (wr_out r), w2,
        [CGrowBy (n + 1) true; CWrite n (wr_ret r) (wr_dataLength r)].
      repeat split; try congruence.
      - rewrite Hc2, Hc1, <- app_assoc. reflexivity.
      - rewrite Hp2, Hh2. rewrite Heos at 2.
        now apply Write_does_end_of_stream with (out1 := out1). }
    assert (Hshrink : wr_dataLength r < n) by now apply shrinks.
    destruct (IH data (wr_dataLength r) (wr_out r) w2)
      as (ret' & t' & out' & w' & calls & E & Hs & Hc & Hrun); [lia|lia|].
    exists ret', t', out', w',
      (CGrowBy (n + 1) true :: CWrite n (wr_ret r) (wr_dataLength r) :: calls).
    repeat split; try congruence.
    + rewrite Hc, Hc2, Hc1, <- !app_assoc. reflexivity.
    + rewrite Hp2, Hh2 in Hrun.
      now apply Write_does_more with (heap' := heap_ w1) (out1 := out1).
Qed.

Lemma Write_run_releases n calls ret s :
  Write_run n calls ret s -> releases_in calls = 0%nat.
Proof. induction 1; simpl; auto. Qed.

Lemma Write_run_state n calls ret s :
  Write_run n calls ret s -> s = Data \/ s = Eos \/ s = Error.
Proof. induction 1; auto. Qed.

Lemma Write_outside fuel data n out w :
  state_ w <> Data ->
  Write fuel data n out w = Some (StatusSequenceError, out, w).
Proof.
  intros H. unfold Write.
  destruct (State_eqb (state_ w) Data) eqn:E; [|reflexivity].
  now apply State_eqb_eq in E.
Qed.

Lemma Write_inside fuel data n out w :
  state_ w = Data ->
  Write fuel data n out w =
  match Write_loop fuel data n (Transition_new Error) out w with
  | None => None
  | Some (ret, t, out, w) => Some (ret, out, leave t w)
  end.
Proof. intros H. unfold Write. now rewrite H. Qed.

(** C2.  In state [Data], for an input of [n > 0] bytes and a processor
    whose transform shrinks the remaining input, [Write] returns, and
    what it returns and leaves is what [Write_does] tells of the
    processor, the allocations to come, the input and the output it was
    given.  Before each call of the transform the output is grown by the
    remaining length plus one, its bytes kept; the transform called is
    that of the instance's processor, on the input not yet consumed and
    on the grown output; the output and the processor that [Write] leaves
    are those the last call left.  The calls end with the input consumed
    ([StatusOk], state [Data]), with the transform reporting the end of
    the stream (that status is returned, state [Eos]), with the transform
    reporting an error (that status is returned, state [Error]), or with
    a growth refused ([StatusMemoryError], state [Error], the transform
    not called again).  The log of the calls is the one [Write_run]
    words. *)
Theorem Write_in_Data (shrinks : Write_shrinks) fuel data n out w :
  state_ w = Data ->
  0 < n < INT_MAX ->
  (Z.to_nat n <= fuel)%nat ->
  exists ret out' w' calls,
    Write fuel data n out w = Some (ret, out', w')
    /\ calls_ w' = calls_ w ++ calls
    /\ Write_run n calls ret (state_ w')
    /\ Write_does data (processor_ w) (heap_ w) n out
         calls ret (state_ w') out' (processor_ w') (heap_ w').
Proof.
  intros Hdata Hn Hfuel.
  destruct (Write_loop_does shrinks fuel data n out w)
    as (ret & t' & out' & w' & calls & E & Hs & Hc & Hrun); [lia|lia|].
  exists ret, out', (leave t' w'), calls.
  rewrite (Write_inside _ _ _ _ _ Hdata), E.
  assert (Hstate : state_ (leave t' w') = Transition_commit t' Data).
  { unfold leave; simpl. now rewrite Hs, Hdata. }
  rewrite Hstate.
  repeat split; try assumption.
  eapply Write_does_run; eassumption.
Qed.

(** C9.  In state [Data] a [Write] of zero bytes returns [StatusOk] and
    leaves the output and the whole instance as they were, so the log
    gains neither a call of the processor nor a growth of the output; the
    request that [write] makes of an empty buffer comes out of [execute]
    with [StatusOk], and its callback, if any, is given no bytes. *)
Theorem Write_empty fuel w :
  state_ w = Data ->
  (forall data out, Write fuel data 0 out w = Some (StatusOk, out, w))
  /\ (forall cb w0 w0' request,
        Request_Write (BufferV []) cb w0 = (Some request, w0') ->
        execute fuel request w = Some (setStatus StatusOk request, w)
        /\ delivery_of (setStatus StatusOk request)
           = match cb with
             | Some f => [mkDelivery f StatusOk []]
             | None => []
             end).
Proof.
  intros Hdata.
  assert (Hw : forall data out,
             Write fuel data 0 out w = Some (StatusOk, out, w)).
  { intros data out. rewrite (Write_inside _ _ _ _ _ Hdata).
    destruct fuel; cbn [Write_loop]; change (0 >? 0) with false;
      cbv beta iota; now rewrite leave_abort. }
  split; [exact Hw|].
  intros cb w0 w0' request Hreq.
  unfold Request_Write in Hreq.
  destruct (allocate w0) as [[] w0'']; inversion Hreq; subst; clear Hreq.
  unfold execute; simpl. rewrite Hw.
  split; [reflexivity|]. unfold delivery_of; simpl. now destruct cb.
Qed.

(** C4.  With a processor whose [Finish] ends the stream within [budget]
    calls, [Finish] returns and leaves the state alone, and what it
    returns and leaves is what [Finish_does] tells of the processor, the
    allocations to come and the output it was given.  Before each call
    the output is grown by 128 bytes, its bytes kept; the finish called
    is that of the instance's processor, on the grown output; the output
    and the processor that [Finish] leaves are those the last call left.
    The calls go on until one reports the end of the stream, and then
    [StatusOk] is returned; a call that reports an error, or a growth
    that is refused ([StatusMemoryError]), is the last call made and its
    status is returned.  The log of the calls is the one [Finish_run]
    words. *)
Theorem Finish_spec budget (bounded : Finish_bounded budget) fuel out w :
  (budget (processor_ w) < fuel)%nat ->
  exists ret out' w' calls,
    Finish fuel out w = Some (ret, out', w')
    /\ state_ w' = state_ w
    /\ calls_ w' = calls_ w ++ calls
    /\ Finish_run calls ret
    /\ Finish_does (processor_ w) (heap_ w) out calls ret out'
         (processor_ w') (heap_ w').
Proof.
  intros Hfuel.
  destruct (Finish_terminates budget bounded fuel out w Hfuel)
    as ([[ret out'] w'] & E).
  destruct (Finish_sound _ _ _ _ _ _ E) as (Hs & _).
  destruct (Finish_does_sound _ _ _ _ _ _ E) as (calls & Hc & Hdoes).
  exists ret, out', w', calls.
  repeat split; try assumption.
  eapply Finish_does_run; eassumption.
Qed.

Lemma Destroy_releasing w :
  releases (state_ w) = true ->
  calls_ (Destroy w) = calls_ w ++ [CDestroy]
  /\ processor_ (Destroy w) = processor_Destroy (processor_ w).
Proof. intros H. rewrite Destroy_cases, H. now split. Qed.

Lemma Destroy_released w :
  releases (state_ w) = false ->
  Destroy w = set_state_ Destroyed w.
Proof. intros H. now rewrite Destroy_cases, H. Qed.

(** C1, as amended.  [Close] in state [Idle] or [Destroyed] returns
    [StatusOk] and leaves the instance, its processor and the log as they
    were.  In state [Data] it returns when [Finish] does, with the status
    of [Finish], after destroying the instance: the processor is released
    once, after the calls of [Finish], and the state is [Destroyed].  In
    state [Eos] or [Error] it destroys the instance in the same way and
    returns [StatusOk]. *)
Theorem Close_spec fuel out w :
  match state_ w with
  | Idle | Destroyed => Close fuel out w = Some (StatusOk, out, w)
  | Data =>
    match Finish fuel out w with
    | Some (ret, out', w') =>
      Close fuel out w = Some (ret, out', Destroy w')
      /\ state_ (Destroy w') = Destroyed
      /\ calls_ (Destroy w') = calls_ w' ++ [CDestroy]
    | None => Close fuel out w = None
    end
  | Eos | Error =>
    Close fuel out w = Some (StatusOk, out, Destroy w)
    /\ state_ (Destroy w) = Destroyed
    /\ calls_ (Destroy w) = calls_ w ++ [CDestroy]
  end.
Proof.
  unfold Close.
  destruct (state_ w) eqn:Hs; simpl; try reflexivity.
  - destruct (Finish fuel out w) as [[[ret out'] w']|] eqn:E; [|reflexivity].
    rewrite leave_abort. repeat split.
    apply Destroy_releasing.
    destruct (Finish_sound _ _ _ _ _ _ E) as (Hs' & _).
    now rewrite Hs', Hs.
  - rewrite leave_abort. repeat split. apply Destroy_releasing. now rewrite Hs.
  - rewrite leave_abort. repeat split. apply Destroy_releasing. now rewrite Hs.
Qed.

Lemma releases_in_app a b :
  releases_in (a ++ b) = (releases_in a + releases_in b)%nat.
Proof. unfold releases_in. now rewrite filter_app, length_app. Qed.

Lemma Write_loop_calls fuel :
  forall data n out w ret t' out' w',
    Write_loop fuel data n (Transition_new Error) out w
    = Some (ret, t', out', w') ->
    state_ w' = state_ w
    /\ releases (Transition_commit t' Data) = true
    /\ exists calls,
        calls_ w' = calls_ w ++ calls /\ releases_in calls = 0%nat.
Proof.
  induction fuel as [|fuel IH]; intros data n out w ret t' out' w' H;
    cbn [Write_loop] in H; destruct (n >? 0).
  - discriminate.
  - inversion H; subst. repeat split. exists []. now rewrite app_nil_r.
  - destruct (GrowBy_effect (int_add n 1) out w)
      as (grown & out1 & w1 & E1 & Hs1 & _ & Hc1 & _).
    rewrite E1 in H. destruct grown; cbv beta iota in H.
    + destruct (call_Write_effect data n out1 w1)
        as (r & left & out2 & w2 & E2 & _ & _ & Hs2 & Hc2).
      rewrite E2 in H.
      destruct (IsError r); [|destruct (r =? StatusEndOfStream)].
      * inversion H; subst. repeat split; try congruence.
        eexists. rewrite Hc2, Hc1, <- app_assoc. split; reflexivity.
      * inversion H; subst. repeat split; try congruence.
        eexists. rewrite Hc2, Hc1, <- app_assoc. split; reflexivity.
      * apply IH in H. destruct H as (Hs & Ht & calls & Hc & Hrel).
        repeat split; try congruence.
        exists (CGrowBy (int_add n 1) true :: CWrite n r left :: calls).
        rewrite Hc, Hc2, Hc1, <- !app_assoc. split; [reflexivity|].
        exact Hrel.
    + inversion H; subst. repeat split; try congruence.
      eexists. split; [eassumption|reflexivity].
  - inversion H; subst. repeat split. exists []. now rewrite app_nil_r.
Qed.

Lemma Write_released_once fuel data n out w ret out' w' :
  released_once w ->
  Write fuel data n out w = Some (ret, out', w') ->
  released_once w'.
Proof.
  intros [Hle Hzero] H. unfold Write in H.
  destruct (State_eqb (state_ w) Data) eqn:Hd; simpl in H.
  - apply State_eqb_eq in Hd.
    destruct (Write_loop fuel data n (Transition_new Error) out w)
      as [[[[r t'] o'] w1]|] eqn:E; [|discriminate].
    inversion H; subst; clear H.
    destruct (Write_loop_calls _ _ _ _ _ _ _ _ _ E)
      as (Hs & Ht & calls & Hc & Hrel).
    assert (Hnone : releases_in (calls_ w1) = 0%nat).
    { rewrite Hc, releases_in_app, Hrel, Hzero; [reflexivity|].
      now rewrite Hd. }
    split; simpl; rewrite Hnone; auto.
  - inversion H; subst. now split.
Qed.

Lemma Destroy_released_once w : released_once w -> released_once (Destroy w).
Proof.
  intros [Hle Hzero]. split; [|intros H; discriminate H].
  destruct (releases (state_ w)) eqn:Hr.
  - destruct (Destroy_releasing w Hr) as [-> _].
    rewrite releases_in_app, (Hzero eq_refl). apply Nat.le_refl.
  - now rewrite (Destroy_released w Hr).
Qed.

Lemma Close_released_once fuel out w ret out' w' :
  released_once w ->
  Close fuel out w = Some (ret, out', w') ->
  released_once w'.
Proof.
  intros Hinv H. unfold Close in H.
  destruct (State_eqb (state_ w) Idle || State_eqb (state_ w) Destroyed).
  - inversion H; subst. exact Hinv.
  - destruct (State_eqb (state_ w) Data) eqn:Hd.
    + destruct (Finish fuel out w) as [[[r o'] w1]|] eqn:E; [|discriminate].
      inversion H; subst; clear H. rewrite leave_abort.
      apply Destroy_released_once.
      destruct (Finish_sound _ _ _ _ _ _ E) as (Hs & calls & Hc & Hrun).
      destruct Hinv as [Hle Hzero]. apply State_eqb_eq in Hd.
      assert (Hnone : releases_in (calls_ w1) = 0%nat).
      { rewrite Hc, releases_in_app, (Finish_run_releases _ _ Hrun), Hzero;
          [reflexivity|now rewrite Hd]. }
      split; rewrite Hnone; auto.
    + inversion H; subst; clear H. rewrite leave_abort.
      now apply Destroy_released_once.
Qed.

Lemma execute_released_once fuel request w request' w' :
  released_once w ->
  execute fuel request w = Some (request', w') ->
  released_once w'.
Proof.
  intros Hinv H. unfold execute in H. destruct (kind_ request).
  - destruct (Write fuel (data_ request) (length_ request) (out_ request) w)
      as [[[r o] w1]|] eqn:E; [|discriminate].
    inversion H; subst. eapply Write_released_once; eassumption.
  - destruct (Close fuel (out_ request) w) as [[[r o] w1]|] eqn:E;
      [|discriminate].
    inversion H; subst. eapply Close_released_once; eassumption.
  - inversion H; subst. now apply Destroy_released_once.
Qed.

Lemma execute_all_released_once fuel requests :
  forall w w',
    released_once w ->
    execute_all fuel requests w = Some w' ->
    released_once w'.
Proof.
  induction requests as [|request requests IH]; intros w w' Hinv H;
    simpl in H.
  - now inversion H; subst.
  - destruct (execute fuel request w) as [[request' w1]|] eqn:E;
      [|discriminate].
    eapply IH; [|eassumption].
    eapply execute_released_once; eassumption.
Qed.

Lemma New_released_once args heap result w :
  New args heap = (result, Some w) -> released_once w.
Proof.
  unfold New. intros H.
  destruct heap as [|[] rest]; simpl in H;
    try discriminate;
    destruct (processor_Init processor_new args) as [p exception];
    destruct (IsUndefined exception); simpl in H;
    inversion H; subst; split; simpl; auto.
Qed.

(** C5.  [Destroy] sets the state to [Destroyed] from every state, and
    calls [processor_.Destroy()] exactly when the state was neither [Idle]
    nor [Destroyed].  A second [Destroy] changes nothing, a [Close] after
    it returns [StatusOk] and changes nothing, and a destroy request on
    the destroyed instance completes with [StatusOk] and changes nothing.
    Whatever requests an instance made by [New] executes, the log never
    holds more than one [processor_.Destroy()]. *)
Theorem Destroy_idempotent w :
  state_ (Destroy w) = Destroyed
  /\ calls_ (Destroy w)
     = calls_ w ++ (if releases (state_ w) then [CDestroy] else [])
  /\ processor_ (Destroy w)
     = (if releases (state_ w) then processor_Destroy (processor_ w)
        else processor_ w)
  /\ Destroy (Destroy w) = Destroy w
  /\ (forall fuel out,
        Close fuel out (Destroy w) = Some (StatusOk, out, Destroy w))
  /\ (forall fuel data length callback out status,
        execute fuel (mkRequest RDestroy data length callback out status)
          (Destroy w)
        = Some (mkRequest RDestroy data length callback out (Some StatusOk),
                Destroy w))
  /\ (forall args heap result w0 fuel requests w',
        New args heap = (result, Some w0) ->
        execute_all fuel requests w0 = Some w' ->
        (releases_in (calls_ w') <= 1)%nat).
Proof.
  split; [reflexivity|].
  split. { rewrite Destroy_cases. destruct (releases (state_ w)); simpl; auto.
           now rewrite app_nil_r. }
  split. { rewrite Destroy_cases. now destruct (releases (state_ w)). }
  split; [apply Destroy_Destroy|].
  split. { intros fuel out. reflexivity. }
  split. { intros. unfold execute; simpl. unfold setStatus; simpl.
           now rewrite Destroy_Destroy. }
  intros args heap result w0 fuel requests w' Hnew Hrun.
  eapply execute_all_released_once; [|eassumption].
  eapply New_released_once; eassumption.
Qed.

(** *** Completion and callbacks *)

Lemma ReentrantPop_callbacks_nil w :
  callbackQueue_ w = [] -> ReentrantPop_callbacks w = (None, w).
Proof. intros H. unfold ReentrantPop_callbacks. now rewrite H. Qed.

Lemma ReentrantPop_callbacks_cons w request q :
  callbackQueue_ w = request :: q ->
  ReentrantPop_callbacks w = (Some request, set_callbackQueue_ q w).
Proof. intros H. unfold ReentrantPop_callbacks. now rewrite H. Qed.

Lemma ReentrantPop_requests_nil w :
  requestsQueue_ w = [] -> ReentrantPop_requests w = (None, w).
Proof. intros H. unfold ReentrantPop_requests. now rewrite H. Qed.

Lemma ReentrantPop_requests_cons w request q :
  requestsQueue_ w = request :: q ->
  ReentrantPop_requests w = (Some request, set_requestsQueue_ q w).
Proof. intros H. unfold ReentrantPop_requests. now rewrite H. Qed.

Lemma handle_effect request w :
  handle request w
  = Unref (set_delivered_ (delivered_ w ++ delivery_of request) w).
Proof.
  unfold handle, DoCallback, delivery_of.
  destruct (callback_ request); [reflexivity|].
  rewrite app_nil_r. now destruct w.
Qed.

Lemma DoHandleCallbacks_delivers fuel :
  forall w,
    (List.length (callbackQueue_ w) < fuel)%nat ->
    exists w',
      DoHandleCallbacks fuel w = Some w'
      /\ delivered_ w'
         = delivered_ w ++ flat_map delivery_of (callbackQueue_ w)
      /\ callbackQueue_ w' = []
      /\ state_ w' = state_ w.
Proof.
  induction fuel as [|fuel IH]; intros w Hfuel; [lia|].
  cbn [DoHandleCallbacks].
  destruct (callbackQueue_ w) as [|request q] eqn:Hq.
  - rewrite (ReentrantPop_callbacks_nil _ Hq). exists w.
    rewrite app_nil_r. auto.
  - rewrite (ReentrantPop_callbacks_cons _ _ _ Hq), handle_effect.
    destruct (IH (Unref (set_delivered_
                (delivered_ (set_callbackQueue_ q w) ++ delivery_of request)
                (set_callbackQueue_ q w)))) as (w' & E & Hd & Hq' & Hs).
    { simpl in *. lia. }
    exists w'. split; [exact E|]. simpl in *.
    rewrite Hd, <- app_assoc. auto.
Qed.

Lemma complete_granted request w :
  granted w = true ->
  callbackQueue_ (complete request w) = callbackQueue_ w ++ [request]
  /\ delivered_ (complete request w) = delivered_ w
  /\ state_ (complete request w) = state_ w.
Proof.
  unfold granted, complete, complete_locked, complete_unlocked, allocate.
  destruct (heap_ w) as [|[] rest]; simpl; intros H;
    try discriminate; auto.
Qed.

Lemma Write_loop_target fuel :
  forall data n out w ret t' out' w',
    Write_loop fuel data n (Transition_new Error) out w
    = Some (ret, t', out', w') ->
    ret = StatusOk \/ Transition_commit t' (state_ w') <> Data.
Proof.
  induction fuel as [|fuel IH]; intros data n out w ret t' out' w' H;
    cbn [Write_loop] in H; destruct (n >? 0);
    try discriminate; try (inversion H; subst; now left).
  destruct (GrowBy (int_add n 1) out w) as [[[] out1] w1].
  - destruct (call_Write data n out1 w1) as [[[r left] out2] w2].
    destruct (IsError r); [|destruct (r =? StatusEndOfStream)].
    + inversion H; subst. right. discriminate.
    + inversion H; subst. right. discriminate.
    + eapply IH; eassumption.
  - inversion H; subst. right. discriminate.
Qed.

Lemma Write_failed fuel data n out w ret out' w' :
  Write fuel data n out w = Some (ret, out', w') ->
  ret <> StatusOk ->
  state_ w' <> Data.
Proof.
  unfold Write. intros H Hret.
  destruct (State_eqb (state_ w) Data) eqn:Hd; simpl in H.
  - destruct (Write_loop fuel data n (Transition_new Error) out w)
      as [[[[r t'] o'] w1]|] eqn:E; [|discriminate].
    inversion H; subst; clear H.
    destruct (Write_loop_target _ _ _ _ _ _ _ _ _ E) as [->|Ht];
      [contradiction|exact Ht].
  - inversion H; subst. intros Hs. rewrite Hs in Hd. discriminate Hd.
Qed.

Lemma Close_leaves fuel out w ret out' w' :
  Close fuel out w = Some (ret, out', w') -> state_ w' <> Data.
Proof.
  unfold Close. intros H.
  destruct (state_ w) eqn:Hs; simpl in H;
    try (inversion H; subst; rewrite ?leave_abort, ?Hs; discriminate).
  destruct (Finish fuel out w) as [[[r o'] w1]|]; [|discriminate].
  inversion H; subst. rewrite leave_abort. discriminate.
Qed.

Lemma Write_request_outside fuel w inputBuffer cb w0 w0' request :
  state_ w <> Data ->
  Request_Write inputBuffer cb w0 = (Some request, w0') ->
  execute fuel request w
  = Some (setStatus StatusSequenceError request, w)
  /\ delivery_of (setStatus StatusSequenceError request)
     = match cb with
       | Some f => [mkDelivery f StatusSequenceError []]
       | None => []
       end.
Proof.
  intros Hstate Hreq. unfold Request_Write in Hreq.
  destruct (allocate w0) as [[] w0'']; inversion Hreq; subst; clear Hreq.
  split.
  - unfold execute; simpl. now rewrite Write_outside.
  - unfold delivery_of; simpl. now destruct cb.
Qed.

(** C3.  In every state other than [Data], [Write] returns
    [StatusSequenceError] and leaves the instance and the output as they
    were.  A request made by [write] is executed to that status with its
    output still empty; handling it invokes the callback, if one was
    supplied, with that status and no bytes, and invokes nothing
    otherwise; and once [DoProcess] has queued the request for its
    callback, [DoHandleCallbacks] does so after the callbacks queued
    before it.  The state is other than [Data] after every [Close], after
    every [Destroy], and after every [Write] that returned another status
    than [StatusOk]. *)
Theorem Write_outside_Data fuel w :
  (state_ w <> Data ->
   (forall data n out,
       Write fuel data n out w = Some (StatusSequenceError, out, w))
   /\ (forall inputBuffer cb w0 w0' request,
         Request_Write inputBuffer cb w0 = (Some request, w0') ->
         let done := setStatus StatusSequenceError request in
         execute fuel request w = Some (done, w)
         /\ delivery_of done
            = match cb with
              | Some f => [mkDelivery f StatusSequenceError []]
              | None => []
              end
         /\ (forall w1,
               delivered_ (handle done w1)
               = delivered_ w1 ++ delivery_of done)
         /\ (forall n,
               granted w = true ->
               (List.length (callbackQueue_ w) + 1 < n)%nat ->
               exists w',
                 DoHandleCallbacks n (complete done w) = Some w'
                 /\ delivered_ w'
                    = delivered_ w ++ flat_map delivery_of (callbackQueue_ w)
                      ++ delivery_of done
                 /\ state_ w' = state_ w)))
  /\ (forall out ret out' w',
        Close fuel out w = Some (ret, out', w') -> state_ w' <> Data)
  /\ state_ (Destroy w) <> Data
  /\ (forall data n out ret out' w',
        Write fuel data n out w = Some (ret, out', w') ->
        ret <> StatusOk ->
        state_ w' <> Data).
Proof.
  split; [|split; [|split]].
  - intros Hstate.
    split; [intros; now apply Write_outside|].
    intros inputBuffer cb w0 w0' request Hreq done.
    destruct (Write_request_outside fuel w _ _ _ _ _ Hstate Hreq)
      as [Hexec Hdelivery].
    split; [exact Hexec|]. split; [exact Hdelivery|].
    split. { intros w1. now rewrite handle_effect. }
    intros n Hgranted Hn.
    destruct (complete_granted done w Hgranted) as (Hq & Hd & Hs).
    destruct (DoHandleCallbacks_delivers n (complete done w))
      as (w' & E & Hd' & _ & Hs').
    { rewrite Hq, length_app. simpl. lia. }
    exists w'. split; [exact E|].
    rewrite Hd', Hq, Hd, flat_map_app. simpl. rewrite app_nil_r.
    split; [reflexivity|congruence].
  - intros out ret out' w'. apply Close_leaves.
  - rewrite state_Destroy. discriminate.
  - intros data n out ret out' w'. apply Write_failed.
Qed.

(** *** The entry points *)

(** C7.  [write] with a first argument that is no [Buffer] throws the
    [TypeError] on its input, and [write] or [close] with a callback
    argument that is defined but no function throws a [TypeError] as
    well; each returns with the world as it was: nothing allocated, so no
    request made, nothing queued, no task started, no callback invoked,
    the state untouched.  The JavaScript thread of the scheduling model
    then only moves on to its next call. *)
Theorem malformed_arguments args w :
  (HasInstance (arg args 0) = false ->
   Write_args args w = (Throw (TypeError "Input must be of type Buffer"), w))
  /\ (bad_callback args 1 = true ->
      Write_args args w
      = (Throw (TypeError (if HasInstance (arg args 0)
                           then "Callback must be a function"
                           else "Input must be of type Buffer")), w)
      /\ forall rest h ws,
          js_call (mkSys w (CallWrite args :: rest) None h ws)
          = [mkSys w rest None h ws])
  /\ (bad_callback args 0 = true ->
      Close_args args w = (Throw (TypeError "Callback must be a function"), w)
      /\ forall rest h ws,
          js_call (mkSys w (CallClose args :: rest) None h ws)
          = [mkSys w rest None h ws]).
Proof.
  unfold bad_callback, Write_args, Close_args, js_call, request_of,
    Write_request, Close_request; simpl.
  split; [intros ->; reflexivity|].
  split; intros H; apply andb_prop in H as [H Hf];
    apply andb_prop in H as [Hl Hu]; rewrite Hl, Hu, Hf; simpl.
  - destruct (HasInstance (arg args 0)); simpl; split; reflexivity.
  - split; reflexivity.
Qed.

Lemma allocate_eq w : allocate w = (granted w, set_heap_ (tl (heap_ w)) w).
Proof.
  unfold granted, allocate. destruct w as [? ? ? ? ? ? ? ? ? ? heap ?]; simpl.
  now destruct heap.
Qed.

Lemma PushRequest_accepted request w :
  granted w = true ->
  exists w',
    PushRequest (Some request) w = (Return Undefined, w')
    /\ requestsQueue_ w' = requestsQueue_ w ++ [request]
    /\ processorActive_ w' = true
    /\ tasks_ w' = (if processorActive_ w then tasks_ w else S (tasks_ w))
    /\ state_ w' = state_ w
    /\ delivered_ w' = delivered_ w.
Proof.
  unfold granted, PushRequest, PushRequest_locked, PushRequest_unlocked,
    allocate.
  destruct (heap_ w) as [|[] rest]; simpl; intros H; try discriminate;
    destruct (processorActive_ w) eqn:Ha; simpl; eexists;
    (split; [reflexivity|]); simpl; auto.
Qed.

Lemma execute_with_callback fuel cb request w :
  execute fuel (with_callback cb request) w
  = match execute fuel request w with
    | Some (done, w') => Some (with_callback cb done, w')
    | None => None
    end.
Proof.
  unfold execute, with_callback; simpl. destruct (kind_ request) eqn:K.
  - destruct (Write fuel (data_ request) (length_ request)
                (out_ request) w) as [[[r o] w']|]; [|reflexivity].
    unfold setStatus, setOutput; simpl. now rewrite K.
  - destruct (Close fuel (out_ request) w) as [[[r o] w']|]; [|reflexivity].
    unfold setStatus, setOutput; simpl. now rewrite K.
  - unfold setStatus; simpl. now rewrite K.
Qed.

(** *** What the state machine leaves alone *)

Lemma frame_refl w : frame w w.
Proof. repeat split. Qed.

Lemma frame_trans w1 w2 w3 : frame w1 w2 -> frame w2 w3 -> frame w1 w3.
Proof. unfold frame. intuition congruence. Qed.

Lemma GrowBy_frame n out w : frame w (snd (GrowBy n out w)).
Proof.
  unfold GrowBy. rewrite allocate_eq.
  destruct (Blob_GrowBy (granted w) n out). repeat split.
Qed.

Lemma call_Write_frame data n out w : frame w (snd (call_Write data n out w)).
Proof. repeat split. Qed.

Lemma call_Finish_frame out w : frame w (snd (call_Finish out w)).
Proof. repeat split. Qed.

Lemma Destroy_frame w : frame w (Destroy w).
Proof. rewrite Destroy_cases. destruct (releases (state_ w)); repeat split. Qed.

Lemma leave_frame t w : frame w (leave t w).
Proof. repeat split. Qed.

Lemma Write_loop_frame fuel :
  forall data n t out w ret t' out' w',
    Write_loop fuel data n t out w = Some (ret, t', out', w') -> frame w w'.
Proof.
  induction fuel as [|fuel IH]; intros data n t out w ret t' out' w' H;
    cbn [Write_loop] in H; destruct (n >? 0);
    try discriminate; try (inversion H; subst; apply frame_refl).
  pose proof (GrowBy_frame (int_add n 1) out w) as F1.
  destruct (GrowBy (int_add n 1) out w) as [[grown out1] w1]; simpl in F1.
  destruct grown; [|inversion H; subst; exact F1].
  pose proof (call_Write_frame data n out1 w1) as F2.
  destruct (call_Write data n out1 w1) as [[[r left] out2] w2]; simpl in F2.
  pose proof (frame_trans _ _ _ F1 F2) as F.
  destruct (IsError r); [inversion H; subst; exact F|].
  destruct (r =? StatusEndOfStream); [inversion H; subst; exact F|].
  eapply frame_trans; [exact F|]. eapply IH; eassumption.
Qed.

Lemma Finish_frame fuel :
  forall out w ret out' w',
    Finish fuel out w = Some (ret, out', w') -> frame w w'.
Proof.
  induction fuel as [|fuel IH]; intros out w ret out' w' H;
    cbn [Finish] in H; [discriminate|].
  pose proof (GrowBy_frame Chunk out w) as F1.
  destruct (GrowBy Chunk out w) as [[grown out1] w1]; simpl in F1.
  destruct grown; [|inversion H; subst; exact F1].
  pose proof (call_Finish_frame out1 w1) as F2.
  destruct (call_Finish out1 w1) as [[r out2] w2]; simpl in F2.
  pose proof (frame_trans _ _ _ F1 F2) as F.
  destruct (IsError r); [inversion H; subst; exact F|].
  destruct (negb (r =? StatusEndOfStream)); [|inversion H; subst; exact F].
  eapply frame_trans; [exact F|]. eapply IH; eassumption.
Qed.

Lemma execute_frame fuel request w request' w' :
  execute fuel request w = Some (request', w') -> frame w w'.
Proof.
  unfold execute. destruct (kind_ request).
  - unfold Write. destruct (negb (State_eqb (state_ w) Data)).
    + intros H; inversion H; subst. apply frame_refl.
    + destruct (Write_loop fuel (data_ request) (length_ request)
                  (Transition_new Error) (out_ request) w)
        as [[[[r t'] o'] w1]|] eqn:E; [|discriminate].
      intros H; inversion H; subst.
      eapply frame_trans; [eapply Write_loop_frame; eassumption|].
      apply leave_frame.
  - unfold Close.
    destruct (State_eqb (state_ w) Idle || State_eqb (state_ w) Destroyed).
    + intros H; inversion H; subst. apply frame_refl.
    + destruct (State_eqb (state_ w) Data).
      * destruct (Finish fuel (out_ request) w) as [[[r o'] w1]|] eqn:E;
          [|discriminate].
        intros H; inversion H; subst. rewrite leave_abort.
        eapply frame_trans; [eapply Finish_frame; eassumption|].
        apply Destroy_frame.
      * intros H; inversion H; subst. rewrite leave_abort.
        apply Destroy_frame.
  - intros H; inversion H; subst. apply Destroy_frame.
Qed.

(** *** Single flight *)

Lemma live_app a b : live (a ++ b) = (live a + live b)%nat.
Proof. unfold live. now rewrite filter_app, length_app. Qed.

Lemma live_cons x ws :
  live (x :: ws) = ((if in_loop x then 1 else 0) + live ws)%nat.
Proof. unfold live. simpl. now destruct (in_loop x). Qed.

Lemma busy_le_live ws : (busy ws <= live ws)%nat.
Proof.
  unfold busy, live. induction ws as [|x ws IH]; simpl; [lia|].
  destruct x; simpl; lia.
Qed.

Lemma remove_returned_live ws : forall ws',
  remove_returned ws = Some ws' -> live ws' = live ws.
Proof.
  induction ws as [|x ws IH]; intros ws' H; simpl in H; [discriminate|].
  destruct x; try (inversion H; subst; reflexivity);
    (destruct (remove_returned ws) as [ws1|]; [|discriminate];
     inversion H; subst; rewrite !live_cons; now rewrite (IH ws1 eq_refl)).
Qed.

Lemma worker_step_flight fuel x w x' w' :
  worker_step fuel x w = Some (x', w') ->
  in_loop x = true
  /\ tasks_ w' = tasks_ w
  /\ (if in_loop x'
      then processorActive_ w' = processorActive_ w
           \/ processorActive_ w' = true
      else processorActive_ w' = false).
Proof.
  destruct x; simpl; intros H.
  - unfold ReentrantPop_requests in H.
    destruct (negb (Queue_length (requestsQueue_ w) =? 0));
      [destruct (Queue_Pop (requestsQueue_ w)) as [[request q]|]|];
      inversion H; subst; simpl; auto.
  - destruct (execute fuel request w) as [[request' w1]|] eqn:E;
      [|discriminate].
    inversion H; subst; simpl.
    destruct (execute_frame _ _ _ _ _ E) as (_ & Ha & _ & Ht & _). auto.
  - unfold complete_locked in H. rewrite allocate_eq in H.
    destruct (granted w); simpl in H; inversion H; subst; simpl; auto.
  - inversion H; subst; simpl. unfold complete_unlocked.
    destruct success; simpl; auto.
  - unfold recheck in H.
    destruct (negb (Queue_length (requestsQueue_ w) =? 0));
      inversion H; subst; simpl; auto.
  - discriminate.
Qed.

Lemma workers_step_inv fuel (s : Sys P) : forall after before s',
  In s' (workers_step fuel s before after) ->
  exists b x a x' w',
    before ++ after = b ++ x :: a
    /\ worker_step fuel x (world s) = Some (x', w')
    /\ s' = mkSys w' (script s) (pushing s) (handling s) (b ++ x' :: a).
Proof.
  induction after as [|x after IH]; intros before s' H; simpl in H;
    [contradiction|].
  apply in_app_or in H as [H|H].
  - destruct (worker_step fuel x (world s)) as [[x' w']|] eqn:E;
      [|contradiction].
    destruct H as [<-|[]]. now exists before, x, after, x', w'.
  - apply IH in H. rewrite <- app_assoc in H. exact H.
Qed.

Lemma single_flight_live (s : Sys P) : single_flight s -> (live (workers s) <= 1)%nat.
Proof. unfold single_flight. destruct (processorActive_ (world s)); lia. Qed.

Lemma next_single_flight fuel (s s' : Sys P) :
  single_flight s -> In s' (next fuel s) -> single_flight s'.
Proof.
  unfold next, single_flight. intros Hinv H.
  repeat (apply in_app_or in H as [H|H]).
  - (* the next call, up to the unlock *)
    unfold js_call in H.
    destruct (pushing s) eqn:Hp; [contradiction|].
    destruct (script s) as [|c rest]; [contradiction|].
    simpl in Hinv.
    destruct (request_of c (world s)) as [e|[[request|] w]] eqn:Hreq.
    + destruct H as [<-|[]]. simpl. exact Hinv.
    + assert (F : tasks_ w = tasks_ (world s)
                  /\ processorActive_ w = processorActive_ (world s)).
      { destruct c; simpl in Hreq;
          unfold Write_request, Close_request, Destroy_request,
            Request_Write, Request_Close, Request_Destroy in Hreq;
          rewrite allocate_eq in Hreq;
          repeat match type of Hreq with
                 | context [if ?b then _ else _] => destruct b
                 end; inversion Hreq; subst; auto. }
      destruct F as [Ft Fa].
      unfold PushRequest_locked in H. rewrite allocate_eq in H.
      destruct (granted w); simpl in H; rewrite Fa in H;
        destruct (processorActive_ (world s)); simpl in H;
        destruct H as [<-|[]]; simpl; rewrite ?Ft, ?Fa; lia.
    + assert (F : tasks_ w = tasks_ (world s)
                  /\ processorActive_ w = processorActive_ (world s)).
      { destruct c; simpl in Hreq;
          unfold Write_request, Close_request, Destroy_request,
            Request_Write, Request_Close, Request_Destroy in Hreq;
          rewrite allocate_eq in Hreq;
          repeat match type of Hreq with
                 | context [if ?b then _ else _] => destruct b
                 end; inversion Hreq; subst; auto. }
      destruct F as [Ft Fa]. destruct H as [<-|[]]. simpl.
      rewrite Ft, Fa. exact Hinv.
  - (* the rest of PushRequest *)
    unfold js_return in H.
    destruct (pushing s) as [[pushed start]|] eqn:Hp; [|contradiction].
    destruct H as [<-|[]]. simpl in *.
    destruct pushed, start; simpl in *; lia.
  - unfold js_notified in H.
    destruct (pushing s), (handling s), (notify_ (world s));
      try contradiction.
    destruct H as [<-|[]]. simpl in *. exact Hinv.
  - unfold js_task_done in H.
    destruct (pushing s), (handling s); try contradiction.
    destruct (remove_returned (workers s)) as [ws|] eqn:E; [|contradiction].
    destruct H as [<-|[]]. simpl in *.
    now rewrite (remove_returned_live _ _ E).
  - unfold js_handle in H.
    destruct (pushing s), (handling s); try contradiction.
    unfold ReentrantPop_callbacks in H.
    destruct (negb (Queue_length (callbackQueue_ (world s)) =? 0));
      [destruct (Queue_Pop (callbackQueue_ (world s))) as [[request q]|]|];
      destruct H as [<-|[]]; simpl in *; try exact Hinv.
    unfold DoCallback. destruct (callback_ request); exact Hinv.
  - unfold task_start in H.
    destruct (tasks_ (world s)) as [|n] eqn:Ht; [contradiction|].
    destruct H as [<-|[]]. simpl in *.
    rewrite live_app, live_cons. change (live []) with 0%nat. simpl. lia.
  - apply workers_step_inv in H.
    destruct H as (b & x & a & x' & w' & Hws & Hstep & ->).
    simpl in Hws. rewrite Hws in Hinv. simpl.
    apply worker_step_flight in Hstep as (Hx & Ht & Ha).
    rewrite live_app, live_cons in *. rewrite Hx in Hinv. rewrite Ht.
    destruct (processorActive_ (world s)); [|lia].
    destruct (in_loop x').
    + destruct Ha as [-> | ->]; exact Hinv.
    + rewrite Ha. lia.
Qed.

Lemma reachable_single_flight fuel (s0 s : Sys P) :
  single_flight s0 -> reachable fuel s0 s -> single_flight s.
Proof.
  intros H0 Hr. induction Hr as [|s s' _ IH Hstep]; [exact H0|].
  eapply next_single_flight; eassumption.
Qed.

Lemma New_idle args heap result w :
  New args heap = (result, Some w) ->
  processorActive_ w = false /\ tasks_ w = 0%nat /\ requestsQueue_ w = [].
Proof.
  unfold New. intros H.
  destruct heap as [|[] rest]; simpl in H;
    try discriminate;
    destruct (processor_Init processor_new args) as [p exception];
    destruct (IsUndefined exception); simpl in H;
    inversion H; subst; auto.
Qed.

(** C8.  Along every interleaving of the steps of the JavaScript thread
    and of the workers, from an instance made by [New] and for any calls
    whatever, at most one worker is in the loop of [DoProcess()], hence
    at most one executes a request; the dispatch flag is set exactly when
    there is such a worker, a queued task or a task about to be queued.
    A [PushRequest] that finds the flag set starts no processing, appends
    its request to the queue if the push succeeds, and queues no task.
    The end of the loop body clears the flag and leaves [DoProcess()] when
    it finds the queue empty, and otherwise keeps the flag set and goes
    back to popping. *)
Theorem dispatch_single_flight fuel :
  (forall args heap result w calls (s : Sys P),
      New args heap = (result, Some w) ->
      reachable fuel (boot w calls) s ->
      single_flight s
      /\ (busy (workers s) <= live (workers s))%nat
      /\ (live (workers s) <= 1)%nat)
  /\ (forall request w,
        processorActive_ w = true ->
        fst (PushRequest_locked request w) = (granted w, false)
        /\ requestsQueue_ (snd (PushRequest_locked request w))
           = requestsQueue_ w ++ (if granted w then [request] else [])
        /\ processorActive_ (snd (PushRequest_locked request w)) = true
        /\ tasks_ (snd (PushRequest (Some request) w)) = tasks_ w)
  /\ (forall w,
        match requestsQueue_ w with
        | [] =>
          recheck w = (false, set_processorActive_ false w)
          /\ worker_step fuel AtRecheck w
             = Some (Returned, set_processorActive_ false w)
        | _ :: _ =>
          recheck w = (true, set_processorActive_ true w)
          /\ worker_step fuel AtRecheck w
             = Some (AtPop, set_processorActive_ true w)
        end).
Proof.
  split; [|split].
  - intros args heap result w calls s Hnew Hreach.
    assert (Hs : single_flight s).
    { eapply reachable_single_flight; [|eassumption].
      destruct (New_idle _ _ _ _ Hnew) as (Ha & Ht & _).
      unfold single_flight, boot; simpl. now rewrite Ha, Ht. }
    split; [exact Hs|]. split; [apply busy_le_live|].
    now apply single_flight_live.
  - intros request w Ha.
    unfold PushRequest, PushRequest_locked, PushRequest_unlocked.
    rewrite allocate_eq. simpl. rewrite Ha.
    destruct (granted w); simpl; rewrite ?Ha, ?app_nil_r; auto.
  - intros w. unfold worker_step, recheck.
    destruct (requestsQueue_ w); simpl; auto.
Qed.

(** *** Requests without a callback *)

Lemma complete_keeps request w :
  state_ (complete request w) = state_ w
  /\ processor_ (complete request w) = processor_ w
  /\ calls_ (complete request w) = calls_ w
  /\ requestsQueue_ (complete request w) = requestsQueue_ w
  /\ delivered_ (complete request w) = delivered_ w.
Proof.
  unfold complete, complete_locked, complete_unlocked. rewrite allocate_eq.
  destruct (granted w); simpl; repeat split.
Qed.

Lemma DoProcess_one fuel request w :
  (2 <= fuel)%nat ->
  requestsQueue_ w = [request] ->
  DoProcess fuel w
  = match execute fuel request (set_requestsQueue_ [] w) with
    | Some (done, w') => Some (set_processorActive_ false (complete done w'))
    | None => None
    end.
Proof.
  intros Hfuel Hq.
  destruct fuel as [|[|fuel]]; [lia|lia|].
  unfold DoProcess. cbn [DoProcess_from DoProcess_drain].
  rewrite (ReentrantPop_requests_cons _ _ _ Hq).
  destruct (execute (S (S fuel)) request (set_requestsQueue_ [] w))
    as [[done w']|] eqn:E; [|reflexivity].
  destruct (execute_frame _ _ _ _ _ E) as (Fq & _).
  destruct (complete_keeps done w') as (_ & _ & _ & Cq & _).
  rewrite ReentrantPop_requests_nil by (rewrite Cq, Fq; reflexivity).
  unfold recheck. rewrite Cq, Fq. reflexivity.
Qed.

Lemma carried_out_intro fuel request w result :
  (2 <= fuel)%nat ->
  requestsQueue_ w = [request] ->
  callback_ request = None ->
  execute fuel request (set_requestsQueue_ [] w)
  = match result with
    | Some (ret, out, w') => Some (setStatus ret (setOutput out request), w')
    | None => None
    end ->
  carried_out fuel request w result.
Proof.
  intros Hfuel Hq Hcb E. unfold carried_out.
  rewrite (DoProcess_one _ _ _ Hfuel Hq), E.
  destruct result as [[[ret out] w']|]; [|reflexivity].
  destruct (execute_frame _ _ _ _ _ E) as (Fq & Fa & Fc & Ft & Fd).
  simpl in Fq, Fc, Fd.
  destruct (complete_keeps (setStatus ret (setOutput out request)) w')
    as (Cs & Cp & Cc & Cq & Cd).
  eexists. split; [reflexivity|]. simpl.
  split; [exact Cs|]. split; [exact Cp|]. split; [exact Cc|].
  split; [rewrite Cq, Fq; reflexivity|]. split; [reflexivity|].
  split; [rewrite Cd, Fd; reflexivity|].
  intros Hgranted.
  destruct (complete_granted (setStatus ret (setOutput out request)) w'
              Hgranted) as (Gq & _ & _).
  split; [rewrite Gq, Fc; reflexivity|].
  intros Hempty.
  destruct (DoHandleCallbacks_delivers fuel
              (set_processorActive_ false
                 (complete (setStatus ret (setOutput out request)) w')))
    as (w3 & E3 & Hd3 & Hq3 & Hs3).
  { simpl. rewrite Gq, Fc, Hempty. simpl. lia. }
  exists w3. split; [exact E3|]. split; [exact Hq3|].
  simpl in Hd3, Hs3. split.
  - rewrite Hd3, Gq, Fc, Cd, Fd, Hempty. simpl.
    unfold delivery_of. simpl. rewrite Hcb. simpl. now rewrite app_nil_r.
  - rewrite Hs3. exact Cs.
Qed.

(** C10.  A [write] whose callback argument is left out or undefined, and
    a [close] likewise, pass the argument checks and hand [PushRequest] a
    request without a callback; when the request and its queue node are
    granted, the call returns [Undefined] with the request queued, the
    dispatch flag set and a task queued unless a dispatch was active.
    The request is then carried out: [DoProcess], finding it in the queue,
    runs [Write] on the bytes of the buffer, or [Close], on the instance,
    returns when that operation does, leaves the instance as the
    operation left it and queues the request for its callback with the
    status and the output of the operation; [DoHandleCallbacks] takes it
    off the queue and invokes nothing.  Executing a request does to the
    instance, to the output and to the status what it does for the same
    request with a callback, and handling a request without a callback
    invokes nothing.  A [destroy] hands [PushRequest] a request without a
    callback; it is carried out in the same way, by [Destroy] on the
    instance, and executing a destroy request always yields
    [StatusOk]. *)
Theorem callback_optional args w :
  (HasInstance (arg args 0) = true -> no_callback args 1 = true ->
   Write_request args w = inr (Request_Write (arg args 0) None w)
   /\ (granted w = true -> granted (snd (allocate w)) = true ->
       exists request w',
         Write_args args w = (Return Undefined, w')
         /\ callback_ request = None
         /\ kind_ request = RWrite
         /\ data_ request = GetBuffer (arg args 0)
         /\ requestsQueue_ w' = requestsQueue_ w ++ [request]
         /\ processorActive_ w' = true
         /\ tasks_ w' = (if processorActive_ w then tasks_ w else S (tasks_ w))
         /\ forall fuel,
             (2 <= fuel)%nat -> requestsQueue_ w = [] ->
             carried_out fuel request w'
               (Write fuel (GetBuffer (arg args 0))
                  (int_wrap (Z.of_nat (List.length (GetBuffer (arg args 0)))))
                  Blob_new (set_requestsQueue_ [] w'))))
  /\ (no_callback args 0 = true ->
      Close_request args w = inr (Request_Close None w)
      /\ (granted w = true -> granted (snd (allocate w)) = true ->
          exists request w',
            Close_args args w = (Return Undefined, w')
            /\ callback_ request = None
            /\ kind_ request = RClose
            /\ requestsQueue_ w' = requestsQueue_ w ++ [request]
            /\ processorActive_ w' = true
            /\ tasks_ w'
               = (if processorActive_ w then tasks_ w else S (tasks_ w))
            /\ forall fuel,
                (2 <= fuel)%nat -> requestsQueue_ w = [] ->
                carried_out fuel request w'
                  (Close fuel Blob_new (set_requestsQueue_ [] w'))))
  /\ (forall fuel cb request,
        execute fuel (with_callback None request) w
        = match execute fuel (with_callback cb request) w with
          | Some (done, w') => Some (with_callback None done, w')
          | None => None
          end)
  /\ (forall request,
        callback_ request = None ->
        DoCallback (callback_ request) (status request) (out_ request) w = w
        /\ delivered_ (handle request w) = delivered_ w)
  /\ (exists request,
        Destroy_request args w
        = inr ((if granted w then Some request else None), snd (allocate w))
        /\ callback_ request = None
        /\ kind_ request = RDestroy
        /\ (granted w = true -> granted (snd (allocate w)) = true ->
            exists w',
              Destroy_args args w = (Return Undefined, w')
              /\ requestsQueue_ w' = requestsQueue_ w ++ [request]
              /\ processorActive_ w' = true
              /\ tasks_ w'
                 = (if processorActive_ w then tasks_ w else S (tasks_ w))
              /\ forall fuel,
                  (2 <= fuel)%nat -> requestsQueue_ w = [] ->
                  carried_out fuel request w'
                    (Some (StatusOk, Blob_new,
                           Destroy (set_requestsQueue_ [] w')))))
  /\ (forall fuel data length callback out status,
        execute fuel (mkRequest RDestroy data length callback out status) w
        = Some (mkRequest RDestroy data length callback out (Some StatusOk),
                Destroy w)).
Proof.
  split; [|split; [|split; [|split; [|split]]]].
  - intros Hbuf Hno. unfold no_callback in Hno. apply negb_true_iff in Hno.
    assert (E : Write_request args w
                = inr (Request_Write (arg args 0) None w)).
    { unfold Write_request. now rewrite Hbuf, Hno. }
    split; [exact E|]. intros Hg1 Hg2.
    unfold Write_args. rewrite E. unfold Request_Write.
    rewrite allocate_eq in *. rewrite Hg1. simpl in Hg2.
    destruct (PushRequest_accepted
                (mkRequest RWrite (GetBuffer (arg args 0))
                   (int_wrap (Z.of_nat (List.length (GetBuffer (arg args 0)))))
                   None Blob_new None) _ Hg2)
      as (w' & Ep & Hq & Ha & Ht & _).
    exists (mkRequest RWrite (GetBuffer (arg args 0))
              (int_wrap (Z.of_nat (List.length (GetBuffer (arg args 0)))))
              None Blob_new None), w'.
    split; [exact Ep|].
    split; [reflexivity|]. split; [reflexivity|]. split; [reflexivity|].
    split; [exact Hq|]. split; [exact Ha|]. split; [exact Ht|].
    intros fuel Hfuel Hempty. simpl in Hq. rewrite Hempty in Hq.
    apply carried_out_intro; [exact Hfuel|exact Hq|reflexivity|].
    unfold execute. cbn [kind_ data_ length_ out_].
    destruct (Write fuel _ _ Blob_new (set_requestsQueue_ [] w'))
      as [[[ret out] w1]|]; reflexivity.
  - intros Hno. unfold no_callback in Hno. apply negb_true_iff in Hno.
    assert (E : Close_request args w = inr (Request_Close None w)).
    { unfold Close_request. now rewrite Hno. }
    split; [exact E|]. intros Hg1 Hg2.
    unfold Close_args. rewrite E. unfold Request_Close.
    rewrite allocate_eq in *. rewrite Hg1. simpl in Hg2.
    destruct (PushRequest_accepted
                (mkRequest RClose [] 0 None Blob_new None) _ Hg2)
      as (w' & Ep & Hq & Ha & Ht & _).
    exists (mkRequest RClose [] 0 None Blob_new None), w'.
    split; [exact Ep|].
    split; [reflexivity|]. split; [reflexivity|]. split; [exact Hq|].
    split; [exact Ha|]. split; [exact Ht|].
    intros fuel Hfuel Hempty. simpl in Hq. rewrite Hempty in Hq.
    apply carried_out_intro; [exact Hfuel|exact Hq|reflexivity|].
    unfold execute. cbn [kind_ data_ length_ out_].
    destruct (Close fuel Blob_new (set_requestsQueue_ [] w'))
      as [[[ret out] w1]|]; reflexivity.
  - intros fuel cb request. rewrite !execute_with_callback.
    destruct (execute fuel request w) as [[done w']|]; reflexivity.
  - intros request Hcb. rewrite handle_effect. unfold delivery_of.
    rewrite Hcb. simpl. split; [reflexivity|apply app_nil_r].
  - exists (mkRequest RDestroy [] 0 None Blob_new None).
    unfold Destroy_request, Request_Destroy.
    rewrite allocate_eq. simpl.
    split; [reflexivity|]. split; [reflexivity|]. split; [reflexivity|].
    intros Hg1 Hg2. unfold Destroy_args, Destroy_request, Request_Destroy.
    rewrite allocate_eq. rewrite Hg1.
    destruct (PushRequest_accepted
                (mkRequest RDestroy [] 0 None Blob_new None) _ Hg2)
      as (w' & Ep & Hq & Ha & Ht & _).
    exists w'. split; [exact Ep|]. split; [exact Hq|].
    split; [exact Ha|]. split; [exact Ht|].
    intros fuel Hfuel Hempty. simpl in Hq. rewrite Hempty in Hq.
    apply (carried_out_intro fuel _ w'
             (Some (StatusOk, Blob_new, Destroy (set_requestsQueue_ [] w'))));
      [exact Hfuel|exact Hq|reflexivity|reflexivity].
  - intros. reflexivity.
Qed.

End Properties.

(** ** The processors keep the contracts *)

Lemma passthrough_shrinks : Write_shrinks (processor := passthrough).
Proof.
  intros p data n out Hn Herr Hne. simpl in *.
  unfold passthrough_Write in *.
  destruct (Z.leb_spec (blob_avail out) 0); simpl in *; [discriminate|lia].
Qed.

Lemma playback_shrinks : Write_shrinks (processor := playback).
Proof.
  intros codes data n out Hn Herr Hne. simpl in *.
  unfold playback_Write in *. destruct codes; simpl in *; lia.
Qed.

Lemma playback_bounded :
  Finish_bounded (processor := playback) (@List.length Z).
Proof.
  intros codes out Herr Hne. simpl in *. unfold playback_Finish in *.
  destruct codes; simpl in *; [congruence|lia].
Qed.

(** ** The scenario *)

Lemma known_In s l : known s l = true -> In s l.
Proof. unfold known. now destruct (in_dec Sys_eq_dec s l). Qed.

Lemma closed_reachable fuel l s0 s :
  known s0 l = true ->
  closed fuel l = true ->
  reachable fuel s0 s ->
  In s l.
Proof.
  intros Hstart Hclosed Hreach.
  induction Hreach as [|s s' _ IH Hstep]; [now apply known_In|].
  unfold closed in Hclosed. rewrite forallb_forall in Hclosed.
  specialize (Hclosed s IH). rewrite forallb_forall in Hclosed.
  apply known_In. now apply Hclosed.
Qed.

Lemma starts_with_app l : forall prefix,
  starts_with l prefix = true -> exists rest, l = prefix ++ rest.
Proof.
  induction l as [|y l IH]; intros [|x prefix] H; simpl in H;
    try discriminate; try (eexists; reflexivity).
  destruct (Delivery_eq_dec x y) as [->|]; [|discriminate].
  destruct (IH _ H) as [rest ->]. now exists rest.
Qed.

Lemma scenario_states_closed : closed 2 scenario_states = true.
Proof. vm_compute. reflexivity. Qed.

Lemma scenario_states_start :
  known (boot fresh three_calls) scenario_states = true.
Proof. vm_compute. reflexivity. Qed.

Lemma scenario_states_ok : forallb scenario_ok scenario_states = true.
Proof. vm_compute. reflexivity. Qed.

Lemma scenario_states_lowering : lowering 2 scenario_states = true.
Proof. vm_compute. reflexivity. Qed.

Lemma lowering_ends fuel l :
  closed fuel l = true ->
  lowering fuel l = true ->
  forall n s,
    (effort s < n)%nat -> In s l ->
    Acc (fun s' s => In s' (next fuel s)) s.
Proof.
  intros Hclosed Hlow. unfold closed, lowering in *.
  rewrite forallb_forall in Hclosed, Hlow.
  induction n as [|n IH]; intros s Hn Hs; [lia|].
  constructor. intros s' Hstep.
  specialize (Hclosed s Hs). specialize (Hlow s Hs).
  rewrite forallb_forall in Hclosed, Hlow.
  apply IH.
  - specialize (Hlow s' Hstep). apply Nat.ltb_lt in Hlow. lia.
  - apply known_In. now apply Hclosed.
Qed.

(** C6.  The instance that [New] makes of the pass-through processor
    takes [write("AB")], [write("CD")] and [close()], each returning
    [Undefined], and queues a single task; one run of [DoProcess] and one
    of [DoHandleCallbacks] then invoke the three callbacks in the order
    of the calls, with status 0 and the bytes "AB", "CD" and none, and
    leave the instance destroyed; a fourth [write] is queued as well and
    its callback gets the status of a sequence error and no bytes.
    However the steps of the JavaScript thread and of the
    workers interleave, the callbacks invoked so far are the first of
    these three; when no step is left they are all three, the instance is
    destroyed and every further [Write] returns [StatusSequenceError];
    and every interleaving comes to that rest. *)
Theorem pipeline_scenario :
  New (processor := passthrough) [] [] = (Return ObjectV, Some fresh)
  /\ (exists w1 w2 w3 w4 w5 w6 w7 w8,
        Write_args [BufferV AB; FunctionV 1] fresh = (Return Undefined, w1)
        /\ Write_args [BufferV CD; FunctionV 2] w1 = (Return Undefined, w2)
        /\ Close_args [FunctionV 3] w2 = (Return Undefined, w3)
        /\ tasks_ w3 = 1%nat
        /\ DoProcess 4 w3 = Some w4
        /\ DoHandleCallbacks 4 w4 = Some w5
        /\ delivered_ w5 = three_callbacks
        /\ state_ w5 = Destroyed
        /\ Write_args [BufferV AB; FunctionV 4] w5 = (Return Undefined, w6)
        /\ DoProcess 4 w6 = Some w7
        /\ DoHandleCallbacks 4 w7 = Some w8
        /\ delivered_ w8 = three_callbacks ++ [mkDelivery 4 (-2) []]
        /\ state_ w8 = Destroyed)
  /\ (forall s,
        reachable 2 (boot fresh three_calls) s ->
        (exists rest, three_callbacks = delivered_ (world s) ++ rest)
        /\ (next 2 s = [] ->
            delivered_ (world s) = three_callbacks
            /\ state_ (world s) = Destroyed
            /\ forall fuel data n out,
                Write fuel data n out (world s)
                = Some (@StatusSequenceError unit passthrough, out,
                        world s)))
  /\ Acc (fun s' s => In s' (next 2 s)) (boot fresh three_calls).
Proof.
  split; [reflexivity|].
  split.
  { pose (w1 := snd (Write_args [BufferV AB; FunctionV 1] fresh)).
    pose (w2 := snd (Write_args [BufferV CD; FunctionV 2] w1)).
    pose (w3 := snd (Close_args [FunctionV 3] w2)).
    pose (w4 := match DoProcess 4 w3 with Some w => w | None => w3 end).
    pose (w5 := match DoHandleCallbacks 4 w4 with
                | Some w => w
                | None => w4
                end).
    pose (w6 := snd (Write_args [BufferV AB; FunctionV 4] w5)).
    pose (w7 := match DoProcess 4 w6 with Some w => w | None => w6 end).
    pose (w8 := match DoHandleCallbacks 4 w7 with
                | Some w => w
                | None => w7
                end).
    exists w1, w2, w3, w4, w5, w6, w7, w8. vm_compute. repeat split. }
  split.
  - intros s Hreach.
    pose proof (closed_reachable _ _ _ _ scenario_states_start
                  scenario_states_closed Hreach) as Hin.
    pose proof scenario_states_ok as Hok.
    rewrite forallb_forall in Hok. specialize (Hok s Hin). clear Hin Hreach.
    unfold scenario_ok in Hok. apply andb_prop in Hok as [Hpre Hrest].
    split; [exact (starts_with_app _ _ Hpre)|].
    intros Hnext. unfold at_rest in Hrest. rewrite Hnext in Hrest.
    apply andb_prop in Hrest as [Hall Hstate].
    destruct (list_eq_dec Delivery_eq_dec (delivered_ (world s))
                three_callbacks) as [Heq|]; [|discriminate Hall].
    apply State_eqb_eq in Hstate.
    split; [exact Heq|]. split; [exact Hstate|].
    intros. apply (Write_outside (processor := passthrough)).
    rewrite Hstate. intros X; discriminate X.
  - apply (lowering_ends 2 scenario_states scenario_states_closed
             scenario_states_lowering (S (effort (boot fresh three_calls))));
      [apply Nat.lt_succ_diag_r|].
    apply known_In, scenario_states_start.
Qed.

(** C1, as the spec words it, fails: after a [Write] that ended in
    [Error] with the status -3 of the processor, [Close] returns 0. *)
Lemma Close_forgets_earlier_status :
  ~ Close_returns_earlier_status (processor := playback).
Proof.
  intros H.
  pose (r := Write (processor := playback) 1 [x41] 1 Blob_new (playing [-3])).
  assert (E : Write (processor := playback) 1 [x41] 1 Blob_new (playing [-3])
              = Some (-3,
                      match r with Some (_, out, _) => out | None => Blob_new end,
                      match r with Some (_, _, w) => w | None => playing [] end))
    by (vm_compute; reflexivity).
  specialize (H _ _ _ _ _ _ _ _ E (or_intror eq_refl) Blob_new).
  destruct H as (out2 & w2 & H). vm_compute in H. discriminate H.
Qed.

(** ** The theorems at work on concrete inputs *)

Lemma Write_in_Data_witness :
  exists ret out' w' calls,
    Write (processor := passthrough) 2 AB 2 Blob_new fresh
    = Some (ret, out', w')
    /\ calls_ w' = calls_ fresh ++ calls
    /\ Write_run (processor := passthrough) 2 calls ret (state_ w')
    /\ Write_does (processor := passthrough) AB (processor_ fresh)
         (heap_ fresh) 2 Blob_new calls ret (state_ w') out' (processor_ w')
         (heap_ w').
Proof.
  apply (Write_in_Data passthrough_shrinks 2 AB 2 Blob_new fresh).
  - reflexivity.
  - unfold INT_MAX. lia.
  - simpl. lia.
Defined.

Lemma Write_outside_Data_witness :
  Write (processor := passthrough) 1 AB 2 Blob_new closed_again
  = Some (-2, Blob_new, closed_again)
  /\ delivery_of
       (setStatus (-2) (mkRequest RWrite AB 2 (Some 7%nat) Blob_new None))
     = [mkDelivery 7 (-2) []].
Proof.
  destruct (Write_outside_Data (processor := passthrough) 1 closed_again)
    as [Houtside _].
  destruct Houtside as [Hwrite Hrequest].
  - vm_compute. intros X. discriminate X.
  - split; [apply Hwrite|].
    destruct (Hrequest (BufferV AB) (Some 7%nat) fresh fresh
                (mkRequest RWrite AB 2 (Some 7%nat) Blob_new None) eq_refl)
      as (_ & Hdelivery & _).
    exact Hdelivery.
Defined.

Lemma Finish_spec_witness :
  exists ret out' w' calls,
    Finish (processor := playback) 3 Blob_new (playing [0; 0])
    = Some (ret, out', w')
    /\ state_ w' = state_ (playing [0; 0])
    /\ calls_ w' = calls_ (playing [0; 0]) ++ calls
    /\ Finish_run (processor := playback) calls ret
    /\ Finish_does (processor := playback) (processor_ (playing [0; 0]))
         (heap_ (playing [0; 0])) Blob_new calls ret out' (processor_ w')
         (heap_ w').
Proof.
  apply (Finish_spec (@List.length Z) playback_bounded 3 Blob_new
           (playing [0; 0])).
  simpl. lia.
Defined.

Lemma Destroy_idempotent_witness :
  New (processor := passthrough) [] [] = (Return ObjectV, Some fresh)
  /\ execute_all 2 close_destroy_close fresh = Some closed_again
  /\ (releases_in (calls_ closed_again) <= 1)%nat.
Proof.
  split; [reflexivity|]. split; [reflexivity|].
  destruct (Destroy_idempotent fresh) as (_ & _ & _ & _ & _ & _ & Honce).
  apply (Honce [] [] (Return ObjectV) fresh 2%nat close_destroy_close).
  - reflexivity.
  - reflexivity.
Defined.

Lemma onward_reachable n : forall s,
  reachable 2 (boot fresh three_calls) s ->
  reachable 2 (boot fresh three_calls) (onward n s).
Proof.
  induction n as [|n IH]; intros s Hs; [exact Hs|].
  simpl. apply IH. unfold first_of.
  destruct (next 2 s) as [|s' l] eqn:E; [exact Hs|].
  apply reachable_step with s; [exact Hs|]. rewrite E. now left.
Qed.

Lemma pipeline_scenario_witness :
  delivered_ (world resting) = three_callbacks
  /\ state_ (world resting) = Destroyed
  /\ Write (processor := passthrough) 1 AB 2 Blob_new (world resting)
     = Some (-2, Blob_new, world resting).
Proof.
  destruct pipeline_scenario as (_ & _ & Hall & _).
  destruct (Hall resting) as (_ & Hrest).
  - apply onward_reachable, reachable_start.
  - destruct Hrest as (Hd & Hs & Hw); [vm_compute; reflexivity|].
    split; [exact Hd|]. split; [exact Hs|]. apply Hw.
Defined.

Lemma malformed_arguments_witness :
  Write_args [Number 5] fresh
  = (Throw (TypeError "Input must be of type Buffer"), fresh)
  /\ Write_args [BufferV AB; Number 7] fresh
     = (Throw (TypeError "Callback must be a function"), fresh)
  /\ Close_args [Str "done"] fresh
     = (Throw (TypeError "Callback must be a function"), fresh).
Proof.
  split; [|split].
  - apply (proj1 (malformed_arguments [Number 5] fresh)). reflexivity.
  - apply (proj1 (proj2 (malformed_arguments [BufferV AB; Number 7] fresh))).
    reflexivity.
  - apply (proj2 (proj2 (malformed_arguments [Str "done"] fresh))).
    reflexivity.
Defined.

Ltac one_step :=
  vm_compute; repeat (first [left; reflexivity | right]).

Lemma dispatch_single_flight_witness :
  (single_flight popped
   /\ (busy (workers popped) <= live (workers popped))%nat
   /\ (live (workers popped) <= 1)%nat)
  /\ tasks_ (snd (PushRequest
                    (Some (mkRequest RClose [] 0 None Blob_new None))
                    (world popped)))
     = tasks_ (world popped).
Proof.
  destruct (dispatch_single_flight (processor := passthrough) 2)
    as (Hflight & Hpush & _).
  split.
  - apply (Hflight [] [] (Return ObjectV) fresh three_calls popped).
    + reflexivity.
    + apply reachable_step with started; [|one_step].
      apply reachable_step with queued; [|one_step].
      apply reachable_step with called; [|one_step].
      apply reachable_step with (boot fresh three_calls); [|one_step].
      apply reachable_start.
  - apply (Hpush (mkRequest RClose [] 0 None Blob_new None) (world popped)).
    reflexivity.
Defined.

Lemma Write_empty_witness :
  Write (processor := passthrough) 0 [] 0 Blob_new fresh
  = Some (0, Blob_new, fresh).
Proof.
  apply (proj1 (Write_empty (processor := passthrough) 0 fresh eq_refl)).
Defined.

Lemma callback_optional_witness :
  Write_request [BufferV AB] fresh = inr (Request_Write (BufferV AB) None fresh)
  /\ Close_request [Undefined] fresh = inr (Request_Close None fresh)
  /\ (exists request w',
        Write_args [BufferV AB; Undefined] fresh = (Return Undefined, w')
        /\ callback_ request = None
        /\ kind_ request = RWrite
        /\ data_ request = AB
        /\ requestsQueue_ w' = requestsQueue_ fresh ++ [request]
        /\ processorActive_ w' = true
        /\ tasks_ w' = 1%nat
        /\ carried_out 2 request w'
             (Write 2 AB 2 Blob_new (set_requestsQueue_ [] w'))).
Proof.
  split; [|split].
  - apply (proj1 (callback_optional [BufferV AB] fresh)); reflexivity.
  - apply (proj1 (proj2 (callback_optional [Undefined] fresh))); reflexivity.
  - destruct (proj1 (callback_optional (processor := passthrough)
                       [BufferV AB; Undefined] fresh) eq_refl eq_refl)
      as (_ & Haccepted).
    destruct (Haccepted eq_refl eq_refl)
      as (request & w' & Hcall & Hcb & Hkind & Hdata & Hqueue & Hactive
          & Htasks & Hrun).
    exists request, w'.
    split; [exact Hcall|]. split; [exact Hcb|]. split; [exact Hkind|].
    split; [exact Hdata|]. split; [exact Hqueue|]. split; [exact Hactive|].
    split; [exact Htasks|].
    exact (Hrun 2%nat (le_n 2) eq_refl).
Defined.

(** * Further properties of zlib.h *)

Section Further.

Context {P : Type} {processor : Processor P}.

Implicit Types (w : World P) (out : Blob) (t : Transition).

(** ** What the state machine never touches *)

Lemma untouched_refl w : untouched w w.
Proof. repeat split. Qed.

Lemma untouched_trans w1 w2 w3 :
  untouched w1 w2 -> untouched w2 w3 -> untouched w1 w3.
Proof. unfold untouched. intuition congruence. Qed.

Lemma GrowBy_untouched n out w : untouched w (snd (GrowBy n out w)).
Proof.
  unfold GrowBy. rewrite allocate_eq.
  destruct (Blob_GrowBy (granted w) n out). repeat split.
Qed.

Lemma Destroy_untouched w : untouched w (Destroy w).
Proof.
  rewrite Destroy_cases. destruct (releases (state_ w)); repeat split.
Qed.

Lemma Write_loop_untouched fuel :
  forall data n t out w ret t' out' w',
    Write_loop fuel data n t out w = Some (ret, t', out', w') ->
    untouched w w'.
Proof.
  induction fuel as [|fuel IH]; intros data n t out w ret t' out' w' H;
    cbn [Write_loop] in H; destruct (n >? 0);
    try discriminate; try (inversion H; subst; apply untouched_refl).
  pose proof (GrowBy_untouched (int_add n 1) out w) as F1.
  destruct (GrowBy (int_add n 1) out w) as [[grown out1] w1]; simpl in F1.
  destruct grown; [|inversion H; subst; exact F1].
  assert (F2 : untouched w1 (snd (call_Write data n out1 w1)))
    by (repeat split).
  destruct (call_Write data n out1 w1) as [[[r left] out2] w2]; simpl in F2.
  pose proof (untouched_trans _ _ _ F1 F2) as F.
  destruct (IsError r); [inversion H; subst; exact F|].
  destruct (r =? StatusEndOfStream); [inversion H; subst; exact F|].
  eapply untouched_trans; [exact F|]. eapply IH; eassumption.
Qed.

Lemma Finish_untouched fuel :
  forall out w ret out' w',
    Finish fuel out w = Some (ret, out', w') -> untouched w w'.
Proof.
  induction fuel as [|fuel IH]; intros out w ret out' w' H;
    cbn [Finish] in H; [discriminate|].
  pose proof (GrowBy_untouched Chunk out w) as F1.
  destruct (GrowBy Chunk out w) as [[grown out1] w1]; simpl in F1.
  destruct grown; [|inversion H; subst; exact F1].
  assert (F2 : untouched w1 (snd (call_Finish out1 w1))) by (repeat split).
  destruct (call_Finish out1 w1) as [[r out2] w2]; simpl in F2.
  pose proof (untouched_trans _ _ _ F1 F2) as F.
  destruct (IsError r); [inversion H; subst; exact F|].
  destruct (negb (r =? StatusEndOfStream)); [|inversion H; subst; exact F].
  eapply untouched_trans; [exact F|]. eapply IH; eassumption.
Qed.

Lemma Write_untouched fuel data n out w ret out' w' :
  Write fuel data n out w = Some (ret, out', w') -> untouched w w'.
Proof.
  unfold Write. destruct (negb (State_eqb (state_ w) Data)).
  - intros H; inversion H; subst. apply untouched_refl.
  - destruct (Write_loop fuel data n (Transition_new Error) out w)
      as [[[[r t'] o'] w1]|] eqn:E; [|discriminate].
    intros H; inversion H; subst.
    eapply untouched_trans; [eapply Write_loop_untouched; eassumption|].
    repeat split.
Qed.

Lemma Close_untouched fuel out w ret out' w' :
  Close fuel out w = Some (ret, out', w') -> untouched w w'.
Proof.
  unfold Close.
  destruct (State_eqb (state_ w) Idle || State_eqb (state_ w) Destroyed).
  - intros H; inversion H; subst. apply untouched_refl.
  - destruct (State_eqb (state_ w) Data).
    + destruct (Finish fuel out w) as [[[r o'] w1]|] eqn:E; [|discriminate].
      intros H; inversion H; subst. rewrite leave_abort.
      eapply untouched_trans; [eapply Finish_untouched; eassumption|].
      apply Destroy_untouched.
    + intros H; inversion H; subst. rewrite leave_abort.
      apply Destroy_untouched.
Qed.

Lemma execute_untouched fuel request w request' w' :
  execute fuel request w = Some (request', w') -> untouched w w'.
Proof.
  unfold execute. destruct (kind_ request).
  - destruct (Write fuel (data_ request) (length_ request) (out_ request) w)
      as [[[r o] w1]|] eqn:E; [|discriminate].
    intros H; inversion H; subst. eapply Write_untouched; eassumption.
  - destruct (Close fuel (out_ request) w) as [[[r o] w1]|] eqn:E;
      [|discriminate].
    intros H; inversion H; subst. eapply Close_untouched; eassumption.
  - intros H; inversion H; subst. apply Destroy_untouched.
Qed.

Lemma execute_keeps fuel request w request' w' :
  execute fuel request w = Some (request', w') ->
  kind_ request' = kind_ request
  /\ data_ request' = data_ request
  /\ length_ request' = length_ request
  /\ callback_ request' = callback_ request.
Proof.
  unfold execute. destruct (kind_ request) eqn:K.
  - destruct (Write fuel (data_ request) (length_ request) (out_ request) w)
      as [[[r o] w1]|]; [|discriminate].
    intros H; inversion H; subst. simpl. auto.
  - destruct (Close fuel (out_ request) w) as [[[r o] w1]|]; [|discriminate].
    intros H; inversion H; subst. simpl. auto.
  - intros H; inversion H; subst. simpl. auto.
Qed.

(** X1.  What the worker does for a request changes the instance only in
    its processor and its state (and uses up allocations): the two
    queues, the dispatch flag, both reference counts, the queued tasks,
    the pending notification and the callbacks invoked are as before, and
    the request keeps its kind, its input and its callback. *)
Theorem execute_leaves_pipeline_alone fuel request w request' w' :
  execute fuel request w = Some (request', w') ->
  untouched w w'
  /\ kind_ request' = kind_ request
  /\ data_ request' = data_ request
  /\ length_ request' = length_ request
  /\ callback_ request' = callback_ request.
Proof.
  intros H. split.
  - eapply execute_untouched; eassumption.
  - eapply execute_keeps; eassumption.
Qed.

(** ** The states an instance goes through *)

Lemma setOutput_same (request : Request) :
  setOutput (out_ request) request = request.
Proof. now destruct request. Qed.

Lemma execute_destroyed fuel request w :
  state_ w = Destroyed ->
  execute fuel request w
  = Some (setStatus (status_when_destroyed (kind_ request)) request, w).
Proof.
  intros Hs. unfold execute, status_when_destroyed.
  destruct (kind_ request).
  - rewrite Write_outside by (rewrite Hs; discriminate).
    now rewrite setOutput_same.
  - unfold Close. rewrite Hs. simpl. now rewrite setOutput_same.
  - rewrite Destroy_released by now rewrite Hs.
    now rewrite <- Hs, set_state_same.
Qed.

(** X2.  A destroyed instance is inert: whatever request is executed on
    it, the world stays exactly as it is, so the processor is not called
    and nothing is allocated; a write gets [StatusSequenceError], a close
    or a destroy [StatusOk]; and so for any number of requests. *)
Theorem destroyed_is_inert fuel w :
  state_ w = Destroyed ->
  (forall request,
      execute fuel request w
      = Some (setStatus (status_when_destroyed (kind_ request)) request, w))
  /\ (forall requests, execute_all fuel requests w = Some w).
Proof.
  intros Hs. split.
  - intros request. now apply execute_destroyed.
  - induction requests as [|request requests IH]; [reflexivity|].
    simpl. now rewrite execute_destroyed.
Qed.

(** X3.  The state after a request, by its kind: a write leaves every
    state other than [Data] as it is, and [Data] in [Data], [Eos] or
    [Error]; a close leaves [Idle] as it is and ends every other state in
    [Destroyed]; a destroy ends every state in [Destroyed].  So no
    request brings an instance to [Data] or to [Idle] from another
    state. *)
Theorem execute_transitions fuel request w request' w' :
  execute fuel request w = Some (request', w') ->
  match kind_ request with
  | RWrite =>
    if State_eqb (state_ w) Data then releases (state_ w') = true
    else state_ w' = state_ w
  | RClose =>
    state_ w' = (if State_eqb (state_ w) Idle then Idle else Destroyed)
  | RDestroy => state_ w' = Destroyed
  end
  /\ (state_ w' = Data -> state_ w = Data /\ kind_ request = RWrite)
  /\ (state_ w' = Idle -> state_ w = Idle /\ kind_ request <> RDestroy).
Proof.
  unfold execute. destruct (kind_ request) eqn:K.
  - destruct (Write fuel (data_ request) (length_ request) (out_ request) w)
      as [[[r o] w1]|] eqn:E; [|discriminate].
    intros H; inversion H; subst; clear H. unfold Write in E.
    destruct (State_eqb (state_ w) Data) eqn:Hd; simpl in E.
    + destruct (Write_loop fuel (data_ request) (length_ request)
                  (Transition_new Error) (out_ request) w)
        as [[[[r' t'] o'] w2]|] eqn:L; [|discriminate].
      inversion E; subst; clear E.
      destruct (Write_loop_calls _ _ _ _ _ _ _ _ _ L) as (Hs & Ht & _).
      apply State_eqb_eq in Hd. simpl. rewrite Hs, Hd.
      split; [exact Ht|]. split; [auto|].
      intros Hi. rewrite Hi in Ht. discriminate Ht.
    + inversion E; subst; clear E.
      split; [reflexivity|]. split.
      * intros Hw. rewrite Hw in Hd. discriminate Hd.
      * intros Hw. split; [exact Hw|discriminate].
  - destruct (Close fuel (out_ request) w) as [[[r o] w1]|] eqn:E;
      [|discriminate].
    intros H; inversion H; subst; clear H. unfold Close in E.
    destruct (state_ w) eqn:Hs; simpl in E;
      try (destruct (Finish fuel (out_ request) w) as [[[r' o'] w2]|];
           [|discriminate]);
      inversion E; subst; clear E; rewrite ?leave_abort, ?state_Destroy, ?Hs;
      (split; [reflexivity|]); split; intros X; try discriminate X;
      split; try reflexivity; discriminate.
  - intros H; inversion H; subst; clear H. rewrite state_Destroy.
    split; [reflexivity|]. split; intros X; discriminate X.
Qed.

(** ** Making an instance *)

(** X4.  [New] makes no instance when its allocation fails, and throws the
    out-of-memory error.  Otherwise it makes one with empty queues, no
    reference taken and no call made on the processor but [Init]: in
    state [Data], returning the object, when [Init] returned [Undefined];
    and in state [Error] otherwise, the value that [Init] handed back
    being returned as it is, not thrown.  An instance left in [Error] by
    [New]
    answers every [Write] with [StatusSequenceError], and a [Close] on it
    still calls [processor_.Destroy()], once, and returns [StatusOk]. *)
Theorem New_outcome args heap :
  match heap with
  | false :: _ => New args heap = (ThrowGentleOom, None)
  | _ =>
    exists w,
      snd (New args heap) = Some w
      /\ processor_ w = fst (processor_Init processor_new args)
      /\ untouched (ZipLib_ctor []) w
      /\ calls_ w = []
      /\ if IsUndefined (snd (processor_Init processor_new args))
         then fst (New args heap) = Return ObjectV /\ state_ w = Data
         else
           fst (New args heap)
           = Return (snd (processor_Init processor_new args))
           /\ state_ w = Error
           /\ (forall fuel data n out,
                 Write fuel data n out w
                 = Some (StatusSequenceError, out, w))
           /\ (forall fuel out,
                 exists w',
                   Close fuel out w = Some (StatusOk, out, w')
                   /\ state_ w' = Destroyed
                   /\ calls_ w' = [CDestroy])
  end.
Proof.
  assert (Hmade : forall rest,
    exists w,
      snd (New args (true :: rest)) = Some w
      /\ snd (New args []) = Some (set_heap_ [] w)
      /\ fst (New args []) = fst (New args (true :: rest))
      /\ processor_ w = fst (processor_Init processor_new args)
      /\ untouched (ZipLib_ctor []) w
      /\ calls_ w = []
      /\ if IsUndefined (snd (processor_Init processor_new args))
         then fst (New args (true :: rest)) = Return ObjectV
              /\ state_ w = Data
         else
           fst (New args (true :: rest))
           = Return (snd (processor_Init processor_new args))
           /\ state_ w = Error).
  { intros rest. unfold New. simpl.
    destruct (processor_Init processor_new args) as [p exception]; simpl.
    destruct (IsUndefined exception); simpl; eexists;
      (split; [reflexivity|]); simpl; repeat split. }
  assert (Herror : forall w,
    state_ w = Error -> calls_ w = [] ->
    (forall fuel data n out,
        Write fuel data n out w = Some (StatusSequenceError, out, w))
    /\ (forall fuel out,
          exists w',
            Close fuel out w = Some (StatusOk, out, w')
            /\ state_ w' = Destroyed
            /\ calls_ w' = [CDestroy])).
  { intros w Hs Hc. split.
    - intros. apply Write_outside. rewrite Hs. discriminate.
    - intros fuel out. exists (Destroy w).
      destruct (Destroy_releasing w) as [Hcalls _]; [now rewrite Hs|].
      rewrite Hcalls, Hc. split; [|split; reflexivity].
      unfold Close. rewrite Hs. cbn [State_eqb orb].
      now rewrite leave_abort. }
  destruct heap as [|[] rest].
  - destruct (Hmade []) as (w & _ & E & Hfst & Hp & Hu & Hc & Hcase).
    exists (set_heap_ [] w). split; [exact E|].
    split; [exact Hp|]. split; [exact Hu|]. split; [exact Hc|].
    rewrite Hfst.
    destruct (IsUndefined (snd (processor_Init processor_new args))).
    + exact Hcase.
    + destruct Hcase as [Hr Hs]. split; [exact Hr|]. split; [exact Hs|].
      now apply Herror.
  - destruct (Hmade rest) as (w & E & _ & _ & Hp & Hu & Hc & Hcase).
    exists w. split; [exact E|].
    split; [exact Hp|]. split; [exact Hu|]. split; [exact Hc|].
    destruct (IsUndefined (snd (processor_Init processor_new args))).
    + exact Hcase.
    + destruct Hcase as [Hr Hs]. split; [exact Hr|]. split; [exact Hs|].
      now apply Herror.
  - reflexivity.
Qed.

(** ** Submitting *)

(** X6.  [PushRequest] without a request throws the out-of-memory error
    and changes nothing.  With a request whose queue node is refused it
    throws the same error, and nothing but the used-up allocation
    changes: the queue, the dispatch flag (also when no dispatch was
    active), the tasks and both reference counts stay.  With the node
    granted it returns [Undefined], the request is last in the queue,
    the flag is set, one task is queued exactly when the flag was not
    set, and both reference counts are one higher. *)
Theorem PushRequest_outcome request w :
  PushRequest None w = (ThrowGentleOom, w)
  /\ PushRequest (Some request) w
     = if granted w
       then
         (Return Undefined,
          mkWorld (processor_ w) (state_ w) (requestsQueue_ w ++ [request])
            true (callbackQueue_ w) (refs_ w + 1) (loop_refs_ w + 1)
            (if processorActive_ w then tasks_ w else S (tasks_ w))
            (notify_ w) (delivered_ w) (tl (heap_ w)) (calls_ w))
       else (ThrowGentleOom, set_heap_ (tl (heap_ w)) w).
Proof.
  split; [reflexivity|].
  unfold PushRequest, PushRequest_locked, PushRequest_unlocked.
  rewrite allocate_eq.
  destruct (granted w); simpl; [|reflexivity].
  destruct (processorActive_ w) eqn:Ha; simpl;
    unfold Ref, ev_ref, eio_custom, set_refs_, set_loop_refs_, set_tasks_,
      set_processorActive_, set_requestsQueue_, set_heap_; simpl;
    rewrite ?Ha; reflexivity.
Qed.

(** ** One worker, one run *)

Lemma allocate_nil w : heap_ w = [] -> allocate w = (true, w).
Proof. intros H. unfold allocate. now rewrite H. Qed.

Lemma GrowBy_nil n out w :
  heap_ w = [] -> heap_ (snd (GrowBy n out w)) = [].
Proof.
  intros H. unfold GrowBy. rewrite (allocate_nil _ H). simpl. exact H.
Qed.

Lemma Write_loop_nil fuel :
  forall data n t out w ret t' out' w',
    heap_ w = [] ->
    Write_loop fuel data n t out w = Some (ret, t', out', w') ->
    heap_ w' = [].
Proof.
  induction fuel as [|fuel IH]; intros data n t out w ret t' out' w' Hn H;
    cbn [Write_loop] in H; destruct (n >? 0);
    try discriminate; try (inversion H; subst; exact Hn).
  pose proof (GrowBy_nil (int_add n 1) out w Hn) as F1.
  destruct (GrowBy (int_add n 1) out w) as [[grown out1] w1]; simpl in F1.
  destruct grown; [|inversion H; subst; exact F1].
  assert (F2 : heap_ (snd (call_Write data n out1 w1)) = []) by exact F1.
  destruct (call_Write data n out1 w1) as [[[r left] out2] w2]; simpl in F2.
  destruct (IsError r); [inversion H; subst; exact F2|].
  destruct (r =? StatusEndOfStream); [inversion H; subst; exact F2|].
  eapply IH; eassumption.
Qed.

Lemma Finish_nil fuel :
  forall out w ret out' w',
    heap_ w = [] ->
    Finish fuel out w = Some (ret, out', w') ->
    heap_ w' = [].
Proof.
  induction fuel as [|fuel IH]; intros out w ret out' w' Hn H;
    cbn [Finish] in H; [discriminate|].
  pose proof (GrowBy_nil Chunk out w Hn) as F1.
  destruct (GrowBy Chunk out w) as [[grown out1] w1]; simpl in F1.
  destruct grown; [|inversion H; subst; exact F1].
  assert (F2 : heap_ (snd (call_Finish out1 w1)) = []) by exact F1.
  destruct (call_Finish out1 w1) as [[r out2] w2]; simpl in F2.
  destruct (IsError r); [inversion H; subst; exact F2|].
  destruct (negb (r =? StatusEndOfStream)); [|inversion H; subst; exact F2].
  eapply IH; eassumption.
Qed.

Lemma heap_Destroy w : heap_ (Destroy w) = heap_ w.
Proof. rewrite Destroy_cases. now destruct (releases (state_ w)). Qed.

Lemma execute_nil fuel request w request' w' :
  heap_ w = [] ->
  execute fuel request w = Some (request', w') ->
  heap_ w' = [].
Proof.
  intros Hn. unfold execute. destruct (kind_ request).
  - unfold Write. destruct (negb (State_eqb (state_ w) Data)).
    + intros H; inversion H; subst. exact Hn.
    + destruct (Write_loop fuel (data_ request) (length_ request)
                  (Transition_new Error) (out_ request) w)
        as [[[[r t'] o'] w1]|] eqn:E; [|discriminate].
      intros H; inversion H; subst. simpl.
      eapply Write_loop_nil; eassumption.
  - unfold Close.
    destruct (State_eqb (state_ w) Idle || State_eqb (state_ w) Destroyed).
    + intros H; inversion H; subst. exact Hn.
    + destruct (State_eqb (state_ w) Data).
      * destruct (Finish fuel (out_ request) w) as [[[r o'] w1]|] eqn:E;
          [|discriminate].
        intros H; inversion H; subst. rewrite leave_abort, heap_Destroy.
        eapply Finish_nil; eassumption.
      * intros H; inversion H; subst. now rewrite leave_abort, heap_Destroy.
  - intros H; inversion H; subst. now rewrite heap_Destroy.
Qed.

Lemma complete_effect request w :
  requestsQueue_ (complete request w) = requestsQueue_ w
  /\ processorActive_ (complete request w) = processorActive_ w
  /\ delivered_ (complete request w) = delivered_ w
  /\ tasks_ (complete request w) = tasks_ w
  /\ loop_refs_ (complete request w) = loop_refs_ w - 1
  /\ callbackQueue_ (complete request w)
     = callbackQueue_ w ++ (if granted w then [request] else [])
  /\ refs_ (complete request w) = refs_ w - (if granted w then 0 else 1)
  /\ heap_ (complete request w) = tl (heap_ w).
Proof.
  unfold complete, complete_locked, complete_unlocked.
  rewrite allocate_eq.
  destruct (granted w); simpl; rewrite ?app_nil_r, ?Z.sub_0_r; repeat split.
Qed.

Lemma granted_nil w : heap_ w = [] -> granted w = true.
Proof. intros H. unfold granted. now rewrite (allocate_nil _ H). Qed.

Lemma DoProcess_drain_effect fuel n :
  forall w w',
    DoProcess_drain fuel n w = Some w' ->
    requestsQueue_ w' = []
    /\ processorActive_ w' = processorActive_ w
    /\ delivered_ w' = delivered_ w
    /\ tasks_ w' = tasks_ w
    /\ loop_refs_ w'
       = loop_refs_ w - Z.of_nat (List.length (requestsQueue_ w))
    /\ refs_ w' - Z.of_nat (List.length (callbackQueue_ w'))
       = refs_ w - Z.of_nat (List.length (callbackQueue_ w))
         - Z.of_nat (List.length (requestsQueue_ w))
    /\ (heap_ w = [] ->
        map identity_of (callbackQueue_ w')
        = map identity_of (callbackQueue_ w ++ requestsQueue_ w)).
Proof.
  induction n as [|n IH]; intros w w' H; cbn [DoProcess_drain] in H;
    [discriminate|].
  destruct (requestsQueue_ w) as [|request q] eqn:Hq.
  - rewrite (ReentrantPop_requests_nil _ Hq) in H. inversion H; subst.
    rewrite Hq, app_nil_r. simpl. repeat split; lia.
  - rewrite (ReentrantPop_requests_cons _ _ _ Hq) in H.
    destruct (execute fuel request (set_requestsQueue_ q w))
      as [[done w1]|] eqn:E; [|discriminate].
    destruct (execute_untouched _ _ _ _ _ E)
      as (Uq & Ua & Uc & Ur & Ul & Ut & _ & Ud).
    destruct (execute_keeps _ _ _ _ _ E) as (Kk & Kd & _ & Kc).
    destruct (complete_effect done w1)
      as (Cq & Ca & Cd & Ct & Cl & Cc & Cr & Ch).
    apply IH in H. destruct H as (Hq' & Ha & Hd & Ht & Hl & Hr & Hh).
    simpl in *.
    split; [exact Hq'|]. split; [congruence|]. split; [congruence|].
    split; [congruence|].
    split. { rewrite Hl, Cl, Cq, Ul, Uq. lia. }
    split. { rewrite Hr, Cr, Cc, Cq, Ur, Uc, Uq, length_app.
             destruct (granted w1); simpl; lia. }
    intros Hnil.
    assert (Hnil1 : heap_ w1 = [])
      by exact (execute_nil fuel request (set_requestsQueue_ q w) done w1
                  Hnil E).
    rewrite Hh by (rewrite Ch, Hnil1; reflexivity).
    rewrite Cc, Cq, Uc, Uq, (granted_nil _ Hnil1).
    rewrite <- !app_assoc, !map_app. simpl.
    unfold identity_of at 2 4. now rewrite Kk, Kd, Kc.
Qed.

(** X7.  When [DoProcess] returns, run with no other thread in between,
    the request queue is empty and the dispatch flag is cleared; no
    callback was invoked and no task queued; the event loop was
    unreferenced once for each request that was queued; each request
    left its reference on the instance either with its place in the
    callback queue or, its push there refused, by an [Unref]; and when
    no allocation is refused, the callback queue has gained the requests
    of the queue, in their order. *)
Theorem DoProcess_drains fuel w w' :
  DoProcess fuel w = Some w' ->
  requestsQueue_ w' = []
  /\ processorActive_ w' = false
  /\ delivered_ w' = delivered_ w
  /\ tasks_ w' = tasks_ w
  /\ loop_refs_ w' = loop_refs_ w - Z.of_nat (List.length (requestsQueue_ w))
  /\ refs_ w' - Z.of_nat (List.length (callbackQueue_ w'))
     = refs_ w - Z.of_nat (List.length (callbackQueue_ w))
       - Z.of_nat (List.length (requestsQueue_ w))
  /\ (heap_ w = [] ->
      map identity_of (callbackQueue_ w')
      = map identity_of (callbackQueue_ w ++ requestsQueue_ w)).
Proof.
  unfold DoProcess. destruct fuel as [|n]; [discriminate|].
  cbn [DoProcess_from].
  destruct (DoProcess_drain (S n) (S n) w) as [w1|] eqn:E; [|discriminate].
  destruct (DoProcess_drain_effect _ _ _ _ E)
    as (Hq & Ha & Hd & Ht & Hl & Hr & Hh).
  unfold recheck. rewrite Hq. simpl.
  intros H; inversion H; subst; clear H. simpl.
  repeat split; assumption.
Qed.

(** X8.  [DoHandleCallbacks], given fuel for the queue, returns with the
    callback queue empty: it has invoked, in the order of the queue, the
    callback of every request that has one, with the request's status and
    output, and has dropped one reference on the instance per request;
    the state, the processor, the request queue, the dispatch flag and
    the tasks are as before. *)
Theorem DoHandleCallbacks_drains fuel :
  forall w,
    (List.length (callbackQueue_ w) < fuel)%nat ->
    exists w',
      DoHandleCallbacks fuel w = Some w'
      /\ callbackQueue_ w' = []
      /\ delivered_ w'
         = delivered_ w ++ flat_map delivery_of (callbackQueue_ w)
      /\ refs_ w' = refs_ w - Z.of_nat (List.length (callbackQueue_ w))
      /\ state_ w' = state_ w
      /\ processor_ w' = processor_ w
      /\ requestsQueue_ w' = requestsQueue_ w
      /\ processorActive_ w' = processorActive_ w
      /\ tasks_ w' = tasks_ w.
Proof.
  induction fuel as [|fuel IH]; intros w Hfuel; [lia|].
  cbn [DoHandleCallbacks].
  destruct (callbackQueue_ w) as [|request q] eqn:Hq.
  - rewrite (ReentrantPop_callbacks_nil _ Hq). exists w.
    simpl. rewrite app_nil_r, Z.sub_0_r. repeat split. exact Hq.
  - rewrite (ReentrantPop_callbacks_cons _ _ _ Hq), handle_effect.
    destruct (IH (Unref (set_delivered_
                (delivered_ (set_callbackQueue_ q w) ++ delivery_of request)
                (set_callbackQueue_ q w))))
      as (w' & E & Hc & Hd & Hr & Hs & Hp & Hrq & Ha & Ht).
    { simpl in *. lia. }
    exists w'. split; [exact E|]. simpl in *.
    rewrite Hd, Hr, <- app_assoc.
    repeat split; try assumption. lia.
Qed.

(** ** Threads *)

Lemma next_Step fuel (s s' : Sys P) : In s' (next fuel s) -> Step fuel s s'.
Proof.
  unfold next. intros H.
  repeat (apply in_app_or in H as [H|H]).
  - unfold js_call in H.
    destruct (pushing s) eqn:Hp; [contradiction|].
    destruct (script s) as [|c rest] eqn:Hc; [contradiction|].
    destruct (request_of c (world s)) as [e|[[request|] w]] eqn:Hreq.
    + destruct H as [<-|[]]. eapply Step_rejected; eassumption.
    + destruct (PushRequest_locked request w) as [[pushed start] w'] eqn:E.
      destruct H as [<-|[]]. eapply Step_locked; eassumption.
    + destruct H as [<-|[]]. eapply Step_no_request; eassumption.
  - unfold js_return in H.
    destruct (pushing s) as [[pushed start]|] eqn:Hp; [|contradiction].
    destruct H as [<-|[]]. now apply Step_unlocked.
  - unfold js_notified in H.
    destruct (pushing s) eqn:Hp, (handling s) eqn:Hh,
      (notify_ (world s)) eqn:Hn; try contradiction.
    destruct H as [<-|[]]. now apply Step_notified.
  - unfold js_task_done in H.
    destruct (pushing s) eqn:Hp, (handling s) eqn:Hh; try contradiction.
    destruct (remove_returned (workers s)) as [ws|] eqn:E; [|contradiction].
    destruct H as [<-|[]]. now apply Step_task_done.
  - unfold js_handle in H.
    destruct (pushing s) eqn:Hp, (handling s) eqn:Hh; try contradiction.
    destruct (callbackQueue_ (world s)) as [|request q] eqn:Hq.
    + rewrite (ReentrantPop_callbacks_nil _ Hq) in H.
      destruct H as [<-|[]]. now apply Step_handled.
    + rewrite (ReentrantPop_callbacks_cons _ _ _ Hq) in H.
      destruct H as [<-|[]]. now apply Step_handle.
  - unfold task_start in H.
    destruct (tasks_ (world s)) as [|n] eqn:Ht; [contradiction|].
    destruct H as [<-|[]]. now apply Step_task.
  - apply workers_step_inv in H.
    destruct H as (b & x & a & x' & w' & Hws & Hstep & ->).
    simpl in Hws. eapply Step_worker; eassumption.
Qed.

Lemma request_of_made (c : JsCall) w :
  match request_of c w with
  | inl _ => call_callback c = []
  | inr (made, w') =>
    w' = set_heap_ (tl (heap_ w)) w
    /\ if granted w
       then exists request,
           made = Some request /\ callback_ids [request] = call_callback c
       else made = None
  end.
Proof.
  destruct c as [args|args|args]; simpl.
  - unfold Write_request, callback_arg, Request_Write.
    destruct (HasInstance (arg args 0)); simpl; [|reflexivity].
    destruct ((1 <? List.length args)%nat && negb (IsUndefined (arg args 1)));
      [destruct (arg args 1) eqn:Ha; simpl; try reflexivity|];
      rewrite allocate_eq; (split; [reflexivity|]);
      destruct (granted w); try reflexivity; eexists; split; reflexivity.
  - unfold Close_request, callback_arg, Request_Close.
    destruct ((0 <? List.length args)%nat && negb (IsUndefined (arg args 0)));
      [destruct (arg args 0) eqn:Ha; simpl; try reflexivity|];
      rewrite allocate_eq; (split; [reflexivity|]);
      destruct (granted w); try reflexivity; eexists; split; reflexivity.
  - unfold Destroy_request, Request_Destroy. rewrite allocate_eq.
    split; [reflexivity|].
    destruct (granted w); try reflexivity; eexists; split; reflexivity.
Qed.

Lemma PushRequest_locked_effect request w :
  PushRequest_locked request w
  = (granted w, negb (processorActive_ w),
     mkWorld (processor_ w) (state_ w)
       (requestsQueue_ w ++ (if granted w then [request] else []))
       (processorActive_ w || granted w) (callbackQueue_ w) (refs_ w)
       (loop_refs_ w) (tasks_ w) (notify_ w) (delivered_ w)
       (tl (heap_ w)) (calls_ w)).
Proof.
  unfold PushRequest_locked. rewrite allocate_eq.
  destruct (granted w); simpl; rewrite ?app_nil_r;
    destruct (processorActive_ w) eqn:Ha; simpl;
    unfold set_processorActive_, set_requestsQueue_, set_heap_; simpl;
    rewrite ?Ha; reflexivity.
Qed.

(** What a step of a worker is, case by case. *)
Lemma worker_step_cases fuel x w x' w' :
  worker_step fuel x w = Some (x', w') ->
  (exists request q,
      x = AtPop /\ requestsQueue_ w = request :: q
      /\ x' = AtSwitch request /\ w' = set_requestsQueue_ q w)
  \/ (x = AtPop /\ requestsQueue_ w = [] /\ x' = AtRecheck /\ w' = w)
  \/ (exists request done,
         x = AtSwitch request /\ x' = AtComplete done
         /\ execute fuel request w = Some (done, w'))
  \/ (exists request,
         x = AtComplete request /\ x' = AtNotify (granted w)
         /\ w' = set_callbackQueue_
                   (callbackQueue_ w
                    ++ (if granted w then [request] else []))
                   (set_heap_ (tl (heap_ w)) w))
  \/ (exists success,
         x = AtNotify success /\ x' = AtPop
         /\ w' = complete_unlocked success w)
  \/ (exists request q,
         x = AtRecheck /\ requestsQueue_ w = request :: q
         /\ x' = AtPop /\ w' = set_processorActive_ true w)
  \/ (x = AtRecheck /\ requestsQueue_ w = []
      /\ x' = Returned /\ w' = set_processorActive_ false w).
Proof.
  destruct x as [|request|request|success| |]; simpl; intros H.
  - destruct (requestsQueue_ w) as [|request q] eqn:Hq.
    + rewrite (ReentrantPop_requests_nil _ Hq) in H. inversion H; subst.
      right; left. auto.
    + rewrite (ReentrantPop_requests_cons _ _ _ Hq) in H.
      inversion H; subst. left. now exists request, q.
  - destruct (execute fuel request w) as [[done w1]|] eqn:E; [|discriminate].
    inversion H; subst. right; right; left. now exists request, done.
  - unfold complete_locked in H. rewrite allocate_eq in H.
    right; right; right; left. exists request.
    destruct (granted w); simpl in H; inversion H; subst;
      rewrite ?app_nil_r; auto.
  - inversion H; subst. right; right; right; right; left.
    now exists success.
  - unfold recheck in H.
    destruct (requestsQueue_ w) as [|request q] eqn:Hq; simpl in H;
      inversion H; subst.
    + do 6 right. auto.
    + do 5 right; left. now exists request, q.
  - discriminate.
Qed.

Lemma PushRequest_unlocked_effect pushed start w :
  snd (PushRequest_unlocked pushed start w)
  = if pushed
    then mkWorld (processor_ w) (state_ w) (requestsQueue_ w)
           (processorActive_ w) (callbackQueue_ w) (refs_ w + 1)
           (loop_refs_ w + 1) (if start then S (tasks_ w) else tasks_ w)
           (notify_ w) (delivered_ w) (heap_ w) (calls_ w)
    else w.
Proof. destruct pushed, start; reflexivity. Qed.

Lemma Step_attended fuel (s s' : Sys P) :
  attended s -> Step fuel s s' -> attended s'.
Proof.
  unfold attended. intros Hinv Hstep.
  destruct Hstep as
    [c rest e Hp Hc Hreq
    |c rest w Hp Hc Hreq
    |c rest request w pushed start w' Hp Hc Hreq Hpush
    |pushed start Hp
    |Hp Hh Hn
    |ws Hp Hh Hws
    |request q Hp Hh Hq
    |Hp Hh Hq
    |n Ht
    |b x a x' w' Hws Hstep];
    cbn [world script pushing handling workers]; try exact Hinv.
  - pose proof (request_of_made c (world s)) as R. rewrite Hreq in R.
    destruct R as [-> _]. exact Hinv.
  - pose proof (request_of_made c (world s)) as R. rewrite Hreq in R.
    destruct R as [-> _].
    rewrite PushRequest_locked_effect in Hpush. inversion Hpush; subst.
    simpl in *. destruct (granted (set_heap_ (tl (heap_ (world s))) (world s))).
    + intros _. apply orb_true_r.
    + rewrite app_nil_r, orb_false_r. exact Hinv.
  - rewrite PushRequest_unlocked_effect. destruct pushed; exact Hinv.
  - rewrite handle_effect. exact Hinv.
  - destruct (worker_step_cases _ _ _ _ _ Hstep)
      as [(r & q & _ & Hq & _ & ->)
         |[(_ & _ & _ & ->)
          |[(r & done & _ & _ & E)
           |[(r & _ & _ & ->)
            |[(b0 & _ & _ & ->)
             |[(r & q & _ & Hq & _ & ->)
              |(_ & Hq & _ & ->)]]]]]]; simpl; try exact Hinv.
    + intros _. apply Hinv. rewrite Hq. discriminate.
    + destruct (execute_untouched _ _ _ _ _ E) as (-> & -> & _). exact Hinv.
    + unfold complete_unlocked. destruct b0; exact Hinv.
    + reflexivity.
    + intros X. contradiction.
Qed.

Lemma New_clean args heap result w :
  New args heap = (result, Some w) ->
  requestsQueue_ w = [] /\ callbackQueue_ w = []
  /\ processorActive_ w = false /\ tasks_ w = 0%nat
  /\ refs_ w = 0 /\ loop_refs_ w = 0 /\ delivered_ w = []
  /\ heap_ w = tl heap.
Proof.
  unfold New. intros H.
  destruct heap as [|[] rest]; simpl in H;
    try discriminate;
    destruct (processor_Init processor_new args) as [p exception];
    destruct (IsUndefined exception); simpl in H;
    inversion H; subst; simpl; repeat split.
Qed.

(** X9.  From an instance made by [New], along every interleaving, for
    any calls and allocation outcomes: whenever the request queue is not
    empty the dispatch flag is set, and there is then exactly one worker
    in the loop of [DoProcess()], task queued, or task about to be
    queued, to take the request up: no request is left in the queue
    without a dispatch. *)
Theorem no_request_left_behind fuel args heap result w calls (s : Sys P) :
  New args heap = (result, Some w) ->
  reachable fuel (boot w calls) s ->
  requestsQueue_ (world s) <> [] ->
  processorActive_ (world s) = true
  /\ (live (workers s) + tasks_ (world s) + about_to_start (pushing s)
      = 1)%nat.
Proof.
  intros Hnew Hreach Hq.
  destruct (New_clean _ _ _ _ Hnew) as (Hq0 & _ & Ha0 & Ht0 & _).
  assert (Hatt : attended s).
  { clear Hq. induction Hreach as [|s s' _ IH Hstep].
    - unfold attended, boot; simpl. rewrite Hq0. intros X. now contradiction X.
    - eapply Step_attended; [exact IH|]. apply next_Step. exact Hstep. }
  assert (Hflight : single_flight s).
  { eapply reachable_single_flight; [|eassumption].
    unfold single_flight, boot; simpl. now rewrite Ha0, Ht0. }
  specialize (Hatt Hq). split; [exact Hatt|].
  unfold single_flight in Hflight. now rewrite Hatt in Hflight.
Qed.

#[local] Arguments Z.add _ _ : simpl never.
#[local] Arguments Z.sub _ _ : simpl never.

(** ** The reference counts, the threads taking turns *)

Lemma submit_request_of c w :
  submit c w
  = match request_of c w with
    | inl _ => w
    | inr (request, w') => snd (PushRequest request w')
    end.
Proof.
  destruct c as [args|args|args]; cbn [submit request_of];
    unfold Write_args, Close_args, Destroy_args.
  - destruct (Write_request args w) as [e|[request w']]; reflexivity.
  - destruct (Close_request args w) as [e|[request w']]; reflexivity.
  - destruct (Destroy_request args w) as [e|[request w']]; reflexivity.
Qed.

Lemma submit_counts c w :
  exists accepted,
    requestsQueue_ (submit c w) = requestsQueue_ w ++ accepted
    /\ callbackQueue_ (submit c w) = callbackQueue_ w
    /\ refs_ (submit c w) = refs_ w + Z.of_nat (List.length accepted)
    /\ loop_refs_ (submit c w)
       = loop_refs_ w + Z.of_nat (List.length accepted).
Proof.
  rewrite submit_request_of.
  pose proof (request_of_made c w) as R.
  destruct (request_of c w) as [e|[made w']].
  { exists []. rewrite app_nil_r. simpl. repeat split; lia. }
  destruct R as [-> R].
  destruct (granted w).
  2:{ subst made. exists []. rewrite app_nil_r. simpl. repeat split; lia. }
  destruct R as (request & -> & _).
  unfold PushRequest. rewrite PushRequest_locked_effect.
  rewrite PushRequest_unlocked_effect.
  destruct (granted (set_heap_ (tl (heap_ w)) w)).
  - exists [request]. simpl. repeat split.
  - exists []. simpl. rewrite app_nil_r. repeat split; lia.
Qed.

Lemma submit_all_counts calls : forall w,
  exists accepted,
    requestsQueue_ (submit_all calls w) = requestsQueue_ w ++ accepted
    /\ callbackQueue_ (submit_all calls w) = callbackQueue_ w
    /\ refs_ (submit_all calls w) = refs_ w + Z.of_nat (List.length accepted)
    /\ loop_refs_ (submit_all calls w)
       = loop_refs_ w + Z.of_nat (List.length accepted).
Proof.
  induction calls as [|c calls IH]; intros w.
  - exists []. rewrite app_nil_r. simpl. repeat split; lia.
  - destruct (submit_counts c w) as (a1 & Hq1 & Hc1 & Hr1 & Hl1).
    destruct (IH (submit c w)) as (a2 & Hq2 & Hc2 & Hr2 & Hl2).
    exists (a1 ++ a2). cbn [submit_all fold_left].
    fold (submit_all calls (submit c w)).
    rewrite Hq2, Hc2, Hr2, Hl2, Hq1, Hc1, Hr1, Hl1, length_app, app_assoc.
    repeat split; lia.
Qed.

Lemma DoHandleCallbacks_counts fuel :
  forall w,
    (List.length (callbackQueue_ w) < fuel)%nat ->
    exists w',
      DoHandleCallbacks fuel w = Some w'
      /\ callbackQueue_ w' = []
      /\ requestsQueue_ w' = requestsQueue_ w
      /\ refs_ w' = refs_ w - Z.of_nat (List.length (callbackQueue_ w))
      /\ loop_refs_ w' = loop_refs_ w.
Proof.
  induction fuel as [|fuel IH]; intros w Hfuel; [lia|].
  cbn [DoHandleCallbacks].
  destruct (callbackQueue_ w) as [|request q] eqn:Hq.
  - rewrite (ReentrantPop_callbacks_nil _ Hq). exists w.
    simpl. rewrite Z.sub_0_r. repeat split. exact Hq.
  - rewrite (ReentrantPop_callbacks_cons _ _ _ Hq), handle_effect.
    destruct (IH (Unref (set_delivered_
                (delivered_ (set_callbackQueue_ q w) ++ delivery_of request)
                (set_callbackQueue_ q w))))
      as (w' & E & Hc & Hrq & Hr & Hl).
    { simpl in *. lia. }
    exists w'. split; [exact E|]. simpl in *.
    rewrite Hr. repeat split; try assumption. lia.
Qed.

(** X10.  The threads taking turns, for any calls, any processor and any
    allocation outcomes, on an instance whose queues are empty: once the
    JavaScript thread has made its calls, the count of references on the
    instance and that on the event loop are each higher by the number of
    requests that are queued; once [DoProcess] has returned, the count
    on the event loop is back where it was and the instance is ahead by
    one reference for each request in the callback queue; and
    [DoHandleCallbacks] then returns with both counts back where they
    were and both queues empty. *)
Theorem references_given_back fuel calls w w2 :
  requestsQueue_ w = [] ->
  callbackQueue_ w = [] ->
  DoProcess fuel (submit_all calls w) = Some w2 ->
  refs_ (submit_all calls w)
  = refs_ w + Z.of_nat (List.length (requestsQueue_ (submit_all calls w)))
  /\ loop_refs_ (submit_all calls w)
     = loop_refs_ w
       + Z.of_nat (List.length (requestsQueue_ (submit_all calls w)))
  /\ loop_refs_ w2 = loop_refs_ w
  /\ refs_ w2 = refs_ w + Z.of_nat (List.length (callbackQueue_ w2))
  /\ forall n,
      (List.length (callbackQueue_ w2) < n)%nat ->
      exists w3,
        DoHandleCallbacks n w2 = Some w3
        /\ refs_ w3 = refs_ w
        /\ loop_refs_ w3 = loop_refs_ w
        /\ requestsQueue_ w3 = []
        /\ callbackQueue_ w3 = [].
Proof.
  intros Hq0 Hc0 Hrun.
  destruct (submit_all_counts calls w) as (accepted & Hq & Hc & Hr & Hl).
  rewrite Hq0 in Hq. simpl in Hq. rewrite Hc0 in Hc.
  rewrite Hq.
  unfold DoProcess in Hrun. destruct fuel as [|m]; [discriminate|].
  cbn [DoProcess_from] in Hrun.
  destruct (DoProcess_drain (S m) (S m) (submit_all calls w)) as [w1|] eqn:E;
    [|discriminate].
  destruct (DoProcess_drain_effect _ _ _ _ E)
    as (Dq & _ & _ & _ & Dl & Dr & _).
  unfold recheck in Hrun. rewrite Dq in Hrun. simpl in Hrun.
  inversion Hrun; subst w2; clear Hrun.
  rewrite Hq, Hc in *. simpl in Dr.
  cbn [loop_refs_ refs_ callbackQueue_ set_processorActive_].
  split; [exact Hr|]. split; [exact Hl|].
  split; [lia|]. split; [lia|].
  intros n Hn.
  destruct (DoHandleCallbacks_counts n (set_processorActive_ false w1))
    as (w3 & E3 & Hc3 & Hq3 & Hr3 & Hl3); [exact Hn|].
  exists w3. split; [exact E3|].
  cbn [loop_refs_ refs_ callbackQueue_ requestsQueue_ set_processorActive_]
    in Hq3, Hr3, Hl3.
  split; [lia|]. split; [lia|]. split; [congruence|exact Hc3].
Qed.

Lemma callback_ids_app (a b : list Request) :
  callback_ids (a ++ b) = callback_ids a ++ callback_ids b.
Proof. apply flat_map_app. Qed.

Lemma delivery_of_ids (request : Request) :
  map d_callback (delivery_of request) = callback_ids [request].
Proof.
  unfold delivery_of, callback_ids. simpl.
  now destruct (callback_ request).
Qed.

Lemma live_zero_in_flight ws :
  live ws = 0%nat -> flat_map in_flight ws = [].
Proof.
  induction ws as [|x ws IH]; [reflexivity|].
  rewrite live_cons. intros H.
  destruct x; simpl in H; try discriminate H; simpl; now apply IH.
Qed.

Lemma remove_returned_in_flight ws : forall ws',
  remove_returned ws = Some ws' ->
  flat_map in_flight ws' = flat_map in_flight ws.
Proof.
  induction ws as [|x ws IH]; intros ws' H; simpl in H; [discriminate|].
  destruct x; try (inversion H; subst; reflexivity);
    (destruct (remove_returned ws) as [ws1|]; [|discriminate];
     inversion H; subst; simpl; now rewrite (IH ws1 eq_refl)).
Qed.

Ltac fields :=
  cbn [world script pushing handling workers processor_ state_
       requestsQueue_ processorActive_ callbackQueue_ refs_ loop_refs_
       tasks_ notify_ delivered_ heap_ calls_ set_processor_ set_state_
       set_requestsQueue_ set_processorActive_ set_callbackQueue_ set_refs_
       set_loop_refs_ set_tasks_ set_notify_ set_delivered_ set_heap_
       set_calls_ Unref Ref ev_ref ev_unref ev_async_send eio_custom].

Lemma Step_in_call_order fuel calls (s s' : Sys P) :
  single_flight s ->
  in_call_order calls s -> Step fuel s s' -> in_call_order calls s'.
Proof.
  unfold in_call_order, pipeline.
  intros Hflight (Hheap & made & Hcalls & Hpipe) Hstep.
  destruct Hstep as
    [c rest e Hp Hc Hreq
    |c rest w Hp Hc Hreq
    |c rest request w pushed start w' Hp Hc Hreq Hpush
    |pushed start Hp
    |Hp Hh Hn
    |ws Hp Hh Hws
    |request q Hp Hh Hq
    |Hp Hh Hq
    |n Ht
    |b x a x' w' Hws Hstep];
    cbn [world script pushing handling workers].
  - pose proof (request_of_made c (world s)) as R. rewrite Hreq in R.
    split; [exact Hheap|]. exists (made ++ [c]).
    rewrite Hc in Hcalls. rewrite <- app_assoc. split; [exact Hcalls|].
    rewrite flat_map_app. simpl. now rewrite R, !app_nil_r.
  - pose proof (request_of_made c (world s)) as R. rewrite Hreq in R.
    rewrite (granted_nil _ Hheap) in R.
    destruct R as (_ & r & Hr & _). discriminate Hr.
  - pose proof (request_of_made c (world s)) as R. rewrite Hreq in R.
    rewrite (granted_nil _ Hheap) in R.
    destruct R as (-> & r & Hr & Hids). inversion Hr; subst r; clear Hr.
    rewrite PushRequest_locked_effect in Hpush.
    inversion Hpush as [[Hpushed Hstart Hw']]. subst w'.
    clear Hpush Hpushed Hstart.
    rewrite granted_nil by (simpl; now rewrite Hheap).
    fields. rewrite Hheap. split; [reflexivity|]. exists (made ++ [c]).
    rewrite Hc in Hcalls. rewrite <- app_assoc. split; [exact Hcalls|].
    rewrite flat_map_app, <- Hpipe, callback_ids_app.
    simpl (flat_map call_callback [c]).
    rewrite app_nil_r, <- Hids, <- !app_assoc. reflexivity.
  - rewrite PushRequest_unlocked_effect.
    destruct pushed; fields; (split; [exact Hheap|]); exists made; now split.
  - split; [exact Hheap|]. exists made. now split.
  - split; [exact Hheap|]. exists made. split; [exact Hcalls|].
    now rewrite (remove_returned_in_flight _ _ Hws).
  - rewrite handle_effect. fields. split; [exact Hheap|]. exists made.
    split; [exact Hcalls|]. rewrite <- Hpipe, Hq.
    rewrite map_app, delivery_of_ids, <- !app_assoc.
    change (request :: q) with ([request] ++ q).
    now rewrite callback_ids_app, <- !app_assoc.
  - split; [exact Hheap|]. exists made. now split.
  - fields. split; [exact Hheap|]. exists made. split; [exact Hcalls|].
    rewrite flat_map_app. simpl (flat_map in_flight [AtPop]).
    now rewrite app_nil_r.
  - assert (Hidle : flat_map in_flight b = [] /\ flat_map in_flight a = []).
    { destruct (worker_step_flight _ _ _ _ _ Hstep) as (Hx & _).
      pose proof (single_flight_live _ Hflight) as Hl.
      rewrite Hws, live_app, live_cons, Hx in Hl.
      split; apply live_zero_in_flight; lia. }
    destruct Hidle as [Hb Ha].
    rewrite Hws, flat_map_app in Hpipe. simpl flat_map in Hpipe.
    rewrite Hb, Ha, app_nil_r in Hpipe. simpl app in Hpipe.
    rewrite flat_map_app. simpl flat_map. rewrite Hb, Ha, app_nil_r.
    simpl app.
    destruct (worker_step_cases _ _ _ _ _ Hstep)
      as [(r & q & -> & Hq & -> & ->)
         |[(-> & _ & -> & ->)
          |[(r & done & -> & -> & E)
           |[(r & -> & -> & ->)
            |[(b0 & -> & -> & ->)
             |[(r & q & -> & Hq & -> & ->)
              |(-> & Hq & -> & ->)]]]]]];
      cbn [in_flight] in *; fields.
    + split; [exact Hheap|]. exists made. split; [exact Hcalls|].
      rewrite <- Hpipe, Hq. change (r :: q) with ([r] ++ q).
      now rewrite callback_ids_app.
    + split; [exact Hheap|]. exists made. now split.
    + destruct (execute_untouched _ _ _ _ _ E)
        as (Uq & _ & Uc & _ & _ & _ & _ & Ud).
      destruct (execute_keeps _ _ _ _ _ E) as (_ & _ & _ & Kc).
      split; [eapply execute_nil; eassumption|]. exists made.
      split; [exact Hcalls|]. rewrite <- Hpipe, Uq, Uc, Ud.
      unfold callback_ids. simpl. now rewrite Kc.
    + rewrite (granted_nil _ Hheap). fields. rewrite Hheap.
      split; [reflexivity|]. exists made. split; [exact Hcalls|].
      rewrite <- Hpipe, callback_ids_app, <- !app_assoc. reflexivity.
    + unfold complete_unlocked.
      destruct b0; fields; (split; [exact Hheap|]); exists made; now split.
    + split; [exact Hheap|]. exists made. now split.
    + split; [exact Hheap|]. exists made. now split.
Qed.

(** X11.  From an instance made by [New], no allocation being refused,
    along every interleaving and for any calls: the callbacks invoked so
    far, followed by those of the requests in the callback queue, of the
    request a worker holds and of the requests in the request queue, are
    the callbacks of the calls made so far, in the order of the calls.
    So callbacks are invoked in the order of their calls. *)
Theorem callbacks_in_call_order fuel args result w calls (s : Sys P) :
  New args [] = (result, Some w) ->
  reachable fuel (boot w calls) s ->
  exists made,
    calls = made ++ script s
    /\ pipeline s = flat_map call_callback made
    /\ exists later,
        flat_map call_callback made
        = map d_callback (delivered_ (world s)) ++ later.
Proof.
  intros Hnew Hreach.
  destruct (New_clean _ _ _ _ Hnew)
    as (Hq0 & Hc0 & Ha0 & Ht0 & _ & _ & Hd0 & Hh0).
  assert (Hinv : single_flight s /\ in_call_order calls s).
  { induction Hreach as [|s s' _ IH Hstep].
    - split.
      + unfold single_flight, boot; simpl. now rewrite Ha0, Ht0.
      + unfold in_call_order, pipeline, boot; simpl.
        rewrite Hq0, Hc0, Hd0, Hh0. split; [reflexivity|].
        exists []. now split.
    - destruct IH as [Hf Ho]. split.
      + eapply next_single_flight; eassumption.
      + eapply Step_in_call_order; [exact Hf|exact Ho|].
        apply next_Step. exact Hstep. }
  destruct Hinv as (_ & _ & made & Hcalls & Hpipe).
  exists made. split; [exact Hcalls|]. split; [exact Hpipe|].
  rewrite <- Hpipe. unfold pipeline. eexists. reflexivity.
Qed.

(** ** Statuses *)

Lemma Write_loop_agrees fuel :
  forall data n out w ret t' out' w',
    Write_loop fuel data n (Transition_new Error) out w
    = Some (ret, t', out', w') ->
    (ret = StatusOk /\ t' = abort (Transition_new Error))
    \/ (ret = StatusEndOfStream /\ IsError ret = false
        /\ t' = alter (Transition_new Error) Eos)
    \/ ((ret = StatusMemoryError \/ IsError ret = true)
        /\ t' = Transition_new Error).
Proof.
  induction fuel as [|fuel IH]; intros data n out w ret t' out' w' H;
    cbn [Write_loop] in H; destruct (n >? 0);
    try discriminate; try (inversion H; subst; now left).
  destruct (GrowBy (int_add n 1) out w) as [[[] out1] w1].
  - destruct (call_Write data n out1 w1) as [[[r left] out2] w2].
    destruct (IsError r) eqn:Herr;
      [|destruct (Z.eqb_spec r StatusEndOfStream) as [Heos|Hne]].
    + inversion H; subst. right; right. auto.
    + inversion H; subst. right; left. auto.
    + eapply IH; eassumption.
  - inversion H; subst. right; right. auto.
Qed.

(** X12.  For a processor whose status codes can be told apart
    ([StatusOk] and the end-of-stream status are no errors and differ,
    [StatusMemoryError] is an error), the status that [Write] returns in
    state [Data] tells the state it leaves, and the state tells the
    status: [Data] exactly with [StatusOk], [Eos] exactly with the
    end-of-stream status, [Error] exactly with a status that is an
    error. *)
Theorem Write_status_tells_state fuel data n out w ret out' w' :
  IsError StatusOk = false ->
  IsError StatusEndOfStream = false ->
  IsError StatusMemoryError = true ->
  StatusOk <> StatusEndOfStream ->
  state_ w = Data ->
  Write fuel data n out w = Some (ret, out', w') ->
  state_ w'
  = (if IsError ret then Error
     else if ret =? StatusEndOfStream then Eos else Data)
  /\ (state_ w' = Data <-> ret = StatusOk)
  /\ (state_ w' = Eos <-> ret = StatusEndOfStream)
  /\ (state_ w' = Error <-> IsError ret = true).
Proof.
  intros Hok Heos Hmem Hne Hdata. rewrite (Write_inside _ _ _ _ _ Hdata).
  destruct (Write_loop fuel data n (Transition_new Error) out w)
    as [[[[r t'] o'] w1]|] eqn:E; [|discriminate].
  intros H; inversion H; subst; clear H.
  destruct (Write_loop_calls _ _ _ _ _ _ _ _ _ E) as (Hs & _).
  destruct (Write_loop_agrees _ _ _ _ _ _ _ _ _ E)
    as [[Hr ->]|[(Hr & He & ->)|[Hr ->]]].
  - assert (Hstate : state_ (leave (abort (Transition_new Error)) w1) = Data)
      by (rewrite leave_abort; congruence).
    rewrite Hstate. subst ret. rewrite Hok.
    destruct (Z.eqb_spec StatusOk StatusEndOfStream) as [X|_];
      [contradiction|].
    repeat split; try reflexivity; intros X;
      try discriminate X; contradiction.
  - cbn [leave alter Transition_new Transition_commit abort_ value_ state_
           set_state_].
    rewrite He. subst ret. rewrite Z.eqb_refl.
    repeat split; try reflexivity; intros X;
      try discriminate X; congruence.
  - cbn [leave Transition_new Transition_commit abort_ value_ state_
           set_state_].
    assert (Herr : IsError ret = true) by (destruct Hr as [->|Hr]; assumption).
    rewrite Herr.
    repeat split; try reflexivity; intros X;
      try discriminate X; subst ret; congruence.
Qed.

Lemma execute_sets_status fuel request w done w' :
  execute fuel request w = Some (done, w') -> has_status done.
Proof.
  unfold execute, has_status. destruct (kind_ request).
  - destruct (Write fuel (data_ request) (length_ request) (out_ request) w)
      as [[[r o] w1]|]; [|discriminate].
    intros H; inversion H; subst. discriminate.
  - destruct (Close fuel (out_ request) w) as [[[r o] w1]|]; [|discriminate].
    intros H; inversion H; subst. discriminate.
  - intros H; inversion H; subst. discriminate.
Qed.

Lemma remove_returned_completed ws : forall ws',
  remove_returned ws = Some ws' ->
  Forall completed ws -> Forall completed ws'.
Proof.
  induction ws as [|x ws IH]; intros ws' H Hall; simpl in H; [discriminate|].
  inversion Hall as [|? ? Hx Hws]; subst.
  destruct x; try (inversion H; subst; exact Hws);
    (destruct (remove_returned ws) as [ws1|]; [|discriminate];
     inversion H; subst; constructor; [exact Hx|now apply IH]).
Qed.

Lemma Step_statuses_set fuel (s s' : Sys P) :
  statuses_set s -> Step fuel s s' -> statuses_set s'.
Proof.
  unfold statuses_set. intros [Hq Hw] Hstep.
  destruct Hstep as
    [c rest e Hp Hc Hreq
    |c rest w Hp Hc Hreq
    |c rest request w pushed start w' Hp Hc Hreq Hpush
    |pushed start Hp
    |Hp Hh Hn
    |ws Hp Hh Hws
    |request q Hp Hh Hq'
    |Hp Hh Hq'
    |n Ht
    |b x a x' w' Hws Hstep];
    cbn [world script pushing handling workers].
  - now split.
  - pose proof (request_of_made c (world s)) as R. rewrite Hreq in R.
    destruct R as [-> _]. now split.
  - pose proof (request_of_made c (world s)) as R. rewrite Hreq in R.
    destruct R as [-> _].
    rewrite PushRequest_locked_effect in Hpush.
    inversion Hpush as [[Hpushed Hstart Hw']]. now split.
  - rewrite PushRequest_unlocked_effect. destruct pushed; now split.
  - now split.
  - split; [exact Hq|]. eapply remove_returned_completed; eassumption.
  - rewrite handle_effect. fields. rewrite Hq' in Hq.
    inversion Hq; subst. now split.
  - now split.
  - fields. split; [exact Hq|]. apply Forall_app. split; [exact Hw|].
    now constructor.
  - rewrite Hws in Hw. apply Forall_app in Hw as [Hb Hxa].
    inversion Hxa as [|? ? Hx Ha]; subst.
    assert (Hgoal : Forall has_status (callbackQueue_ w') /\ completed x').
    { destruct (worker_step_cases _ _ _ _ _ Hstep)
        as [(r & q & -> & Hq' & -> & ->)
           |[(-> & _ & -> & ->)
            |[(r & done & -> & -> & E)
             |[(r & -> & -> & ->)
              |[(b0 & -> & -> & ->)
               |[(r & q & -> & Hq' & -> & ->)
                |(-> & Hq' & -> & ->)]]]]]];
        fields; cbn [completed]; try (split; [exact Hq|exact I]).
      - destruct (execute_untouched _ _ _ _ _ E) as (_ & _ & -> & _).
        split; [exact Hq|]. eapply execute_sets_status; eassumption.
      - split; [|exact I]. apply Forall_app. split; [exact Hq|].
        destruct (granted (world s)); [|constructor].
        constructor; [exact Hx|constructor].
      - unfold complete_unlocked. destruct b0; fields; now split. }
    destruct Hgoal as [Hq1 Hx1]. split; [exact Hq1|].
    apply Forall_app. split; [exact Hb|]. now constructor.
Qed.

(** X13.  From an instance made by [New], along every interleaving, for
    any calls and allocation outcomes: every request in the callback
    queue, and every request a worker is about to put there, has had its
    status set; [DoHandleCallbacks] never hands a callback a status that
    was not set. *)
Theorem callbacks_get_a_set_status fuel args heap result w calls (s : Sys P) :
  New args heap = (result, Some w) ->
  reachable fuel (boot w calls) s ->
  Forall has_status (callbackQueue_ (world s))
  /\ Forall completed (workers s).
Proof.
  intros Hnew Hreach.
  destruct (New_clean _ _ _ _ Hnew) as (_ & Hc0 & _).
  induction Hreach as [|s s' _ IH Hstep].
  - unfold boot; simpl. rewrite Hc0. split; constructor.
  - eapply Step_statuses_set; [exact IH|]. apply next_Step. exact Hstep.
Qed.

End Further.

(** ** The further properties at work on concrete inputs *)

Lemma execute_leaves_pipeline_alone_witness :
  untouched fresh (snd written)
  /\ kind_ (fst written) = RWrite
  /\ data_ (fst written) = AB
  /\ length_ (fst written) = 2
  /\ callback_ (fst written) = Some 1%nat.
Proof.
  apply (execute_leaves_pipeline_alone (processor := passthrough) 2
           first_write fresh (fst written) (snd written)).
  reflexivity.
Defined.

Lemma destroyed_is_inert_witness :
  execute_all (processor := passthrough) 2 close_destroy_close closed_again
  = Some closed_again.
Proof.
  apply (proj2 (destroyed_is_inert (processor := passthrough) 2 closed_again
                  eq_refl)).
Defined.

Lemma execute_transitions_witness :
  releases (state_ (snd written)) = true
  /\ (state_ (snd written) = Data ->
      state_ fresh = Data /\ kind_ first_write = RWrite)
  /\ (state_ (snd written) = Idle ->
      state_ fresh = Idle /\ kind_ first_write <> RDestroy).
Proof.
  apply (execute_transitions (processor := passthrough) 2 first_write fresh
           (fst written) (snd written)).
  reflexivity.
Defined.

Lemma DoProcess_drains_witness :
  requestsQueue_ processed = []
  /\ processorActive_ processed = false
  /\ delivered_ processed = delivered_ submitted
  /\ tasks_ processed = tasks_ submitted
  /\ loop_refs_ processed
     = loop_refs_ submitted
       - Z.of_nat (List.length (requestsQueue_ submitted))
  /\ refs_ processed - Z.of_nat (List.length (callbackQueue_ processed))
     = refs_ submitted - Z.of_nat (List.length (callbackQueue_ submitted))
       - Z.of_nat (List.length (requestsQueue_ submitted))
  /\ (heap_ submitted = [] ->
      map identity_of (callbackQueue_ processed)
      = map identity_of (callbackQueue_ submitted ++ requestsQueue_ submitted)).
Proof.
  apply (DoProcess_drains (processor := passthrough) 4 submitted processed).
  vm_compute. reflexivity.
Defined.

Lemma DoHandleCallbacks_drains_witness :
  exists w',
    DoHandleCallbacks 4 processed = Some w'
    /\ callbackQueue_ w' = []
    /\ delivered_ w'
       = delivered_ processed ++ flat_map delivery_of (callbackQueue_ processed)
    /\ refs_ w'
       = refs_ processed - Z.of_nat (List.length (callbackQueue_ processed))
    /\ state_ w' = state_ processed
    /\ processor_ w' = processor_ processed
    /\ requestsQueue_ w' = requestsQueue_ processed
    /\ processorActive_ w' = processorActive_ processed
    /\ tasks_ w' = tasks_ processed.
Proof.
  apply (DoHandleCallbacks_drains (P := unit) 4 processed).
  vm_compute. lia.
Defined.

Lemma queued_reachable : reachable 2 (boot fresh three_calls) queued.
Proof.
  apply reachable_step with called; [|one_step].
  apply reachable_step with (boot fresh three_calls); [|one_step].
  apply reachable_start.
Qed.

Lemma no_request_left_behind_witness :
  processorActive_ (world queued) = true
  /\ (live (workers queued) + tasks_ (world queued)
      + about_to_start (pushing queued) = 1)%nat.
Proof.
  apply (no_request_left_behind (processor := passthrough) 2 [] []
           (Return ObjectV) fresh three_calls queued).
  - reflexivity.
  - exact queued_reachable.
  - vm_compute. intros X. discriminate X.
Defined.

Lemma references_given_back_witness :
  List.length (requestsQueue_ (submit_all three_calls fresh)) = 3%nat
  /\ refs_ (submit_all three_calls fresh)
     = refs_ fresh
       + Z.of_nat (List.length (requestsQueue_ (submit_all three_calls fresh)))
  /\ loop_refs_ (submit_all three_calls fresh)
     = loop_refs_ fresh
       + Z.of_nat (List.length (requestsQueue_ (submit_all three_calls fresh)))
  /\ loop_refs_ processed = loop_refs_ fresh
  /\ refs_ processed
     = refs_ fresh + Z.of_nat (List.length (callbackQueue_ processed))
  /\ exists w3,
      DoHandleCallbacks 4 processed = Some w3
      /\ refs_ w3 = refs_ fresh
      /\ loop_refs_ w3 = loop_refs_ fresh
      /\ requestsQueue_ w3 = []
      /\ callbackQueue_ w3 = [].
Proof.
  split; [vm_compute; reflexivity|].
  assert (E : DoProcess (processor := passthrough) 4
                (submit_all three_calls fresh) = Some processed)
    by (vm_compute; reflexivity).
  destruct (references_given_back (processor := passthrough) 4 three_calls
              fresh processed eq_refl eq_refl E)
    as (Hr & Hl & Hl2 & Hr2 & Hback).
  split; [exact Hr|]. split; [exact Hl|]. split; [exact Hl2|].
  split; [exact Hr2|].
  apply (Hback 4%nat). vm_compute. lia.
Defined.

Lemma callbacks_in_call_order_witness :
  exists made,
    three_calls = made ++ script resting
    /\ pipeline resting = flat_map call_callback made
    /\ exists later,
        flat_map call_callback made
        = map d_callback (delivered_ (world resting)) ++ later.
Proof.
  apply (callbacks_in_call_order (processor := passthrough) 2 []
           (Return ObjectV) fresh three_calls resting).
  - reflexivity.
  - apply onward_reachable, reachable_start.
Defined.

Lemma Write_status_tells_state_witness :
  state_ (snd written)
  = (if @IsError unit passthrough 0 then Error
     else if 0 =? @StatusEndOfStream unit passthrough then Eos else Data)
  /\ (state_ (snd written) = Data <-> 0 = @StatusOk unit passthrough)
  /\ (state_ (snd written) = Eos <-> 0 = @StatusEndOfStream unit passthrough)
  /\ (state_ (snd written) = Error <-> @IsError unit passthrough 0 = true).
Proof.
  apply (Write_status_tells_state (processor := passthrough) 2 AB 2 Blob_new
           fresh 0 (out_ (fst written)) (snd written)).
  - reflexivity.
  - reflexivity.
  - reflexivity.
  - discriminate.
  - reflexivity.
  - vm_compute. reflexivity.
Defined.

Lemma callbacks_get_a_set_status_witness :
  map status_ (callbackQueue_ (world first_completed)) = [Some 0]
  /\ Forall has_status (callbackQueue_ (world first_completed))
  /\ Forall completed (workers first_completed).
Proof.
  split; [vm_compute; reflexivity|].
  apply (callbacks_get_a_set_status (processor := passthrough) 2 [] []
           (Return ObjectV) fresh three_calls first_completed).
  - reflexivity.
  - apply onward_reachable, reachable_start.
Defined.
